(** * A shallow embedding of the gor traffic replayer

    The development follows the Go sources: the replay HTTP client
    ([http_client.go]), the file sink's indexed names, the buffer-size
    parser of the settings, the TCP sink and the fan-out emitter.

    Conventions.  A Go [[]byte] or [string] is a [list ascii]; a Go [int]
    (64 bits on the release target) is a [Z] kept in range by explicit
    wrap-around where the code can overflow; a Go [(value, error)] pair is
    a Rocq pair whose second component is an [option]; a panic is an
    explicit outcome. *)

From Stdlib Require Import ZArith List Ascii String Bool Lia Permutation Sorting.
From stdpp Require Import base list gmap strings sorting.
Import ListNotations.

Local Open Scope Z_scope.

(** ** Go values *)

Abbreviation bytes := (list ascii).

(** A byte-string literal in the notation of Go: [\r], [\n], [\t] and
    [\\] are escapes. *)
Fixpoint unescape (s : bytes) : bytes :=
  match s with
  | "\"%char :: c :: r =>
      (if Ascii.eqb c "r"%char then "013"%char
       else if Ascii.eqb c "n"%char then "010"%char
       else if Ascii.eqb c "t"%char then "009"%char
       else c) :: unescape r
  | c :: r => c :: unescape r
  | [] => []
  end.

Definition B (s : string) : bytes := unescape (list_ascii_of_string s).

Definition byte_val (c : ascii) : Z := Z.of_N (N_of_ascii c).

Definition len {A} (s : list A) : Z := Z.of_nat (length s).

(** [s[i:]] and [s[:j]] for indices already known to be in range. *)
Definition slice_from {A} (s : list A) (i : Z) : list A := drop (Z.to_nat i) s.
Definition slice_to {A} (s : list A) (j : Z) : list A := take (Z.to_nat j) s.
Definition slice {A} (s : list A) (i j : Z) : list A := slice_to (slice_from s i) (j - i).

(** The builtin [copy(dst, src)]: overwrites the first
    [min(len(dst), len(src))] elements of [dst]. *)
Definition copy {A} (dst src : list A) : list A :=
  take (length dst) src ++ drop (length src) dst.

(** [copy(dst[i:j], src)] seen from the whole of [dst]. *)
Definition copy_at {A} (dst : list A) (i j : Z) (src : list A) : list A :=
  slice_to dst i ++ copy (slice dst i j) src ++ slice_from dst j.

Definition bytes_eqb (a b : bytes) : bool := bool_decide (a = b).

Definition MaxInt64 : Z := 2 ^ 63 - 1.
Definition MinInt64 : Z := - 2 ^ 63.

Definition in_int64 (n : Z) : Prop := MinInt64 <= n <= MaxInt64.

(** Two's-complement wrap-around of a 64-bit signed result. *)
Definition wrap64 (n : Z) : Z := (n + 2 ^ 63) mod 2 ^ 64 - 2 ^ 63.

Definition wrap32u (n : Z) : Z := n mod 2 ^ 32.

(** ** The parts of the Go standard library the sources call *)

Module strings.

Definition HasPrefix (s prefix : bytes) : bool :=
  bytes_eqb (take (length prefix) s) prefix.

Definition HasSuffix (s suffix : bytes) : bool :=
  (length suffix <=? length s)%nat
  && bytes_eqb (drop (length s - length suffix) s) suffix.

Definition TrimSuffix (s suffix : bytes) : bytes :=
  if HasSuffix s suffix then take (length s - length suffix) s else s.

(** [strings.LastIndex(s, string(c))] for a one-byte separator. *)
Fixpoint LastIndexByte (s : bytes) (c : ascii) : Z :=
  match s with
  | [] => -1
  | x :: r =>
      let k := LastIndexByte r c in
      if k =? -1 then (if Ascii.eqb x c then 0 else -1) else k + 1
  end.

(** [bytes.IndexByte]. *)
Fixpoint IndexByte (s : bytes) (c : ascii) : Z :=
  match s with
  | [] => -1
  | x :: r =>
      if Ascii.eqb x c then 0
      else let k := IndexByte r c in if k =? -1 then -1 else k + 1
  end.

(** [bytes.Index]: the first position at which [sep] occurs, or [-1]. *)
Fixpoint Index (s sep : bytes) : Z :=
  if HasPrefix s sep then 0
  else match s with
       | [] => -1
       | _ :: r => let k := Index r sep in if k =? -1 then -1 else k + 1
       end.

Definition lower (c : ascii) : ascii :=
  let n := byte_val c in
  if (65 <=? n) && (n <=? 90) then ascii_of_N (Z.to_N (n + 32)) else c.

End strings.

Module filepath.

Definition Separator : ascii := "/"%char.

(** [filepath.Ext]: the loop walks the path from its last byte towards
    the first, stops at a separator, and returns the suffix that starts
    at the first dot it meets.  [seen] holds the bytes already passed. *)
Fixpoint ext_scan (rpath seen : bytes) : bytes :=
  match rpath with
  | [] => []
  | c :: r =>
      if Ascii.eqb c Separator then []
      else if Ascii.eqb c "."%char then c :: seen
      else ext_scan r (c :: seen)
  end.

Definition Ext (path : bytes) : bytes := ext_scan (rev path) [].

(** A byte that [Ext] walks over: neither a dot nor a separator. *)
Definition plain (c : ascii) : bool :=
  negb (Ascii.eqb c "."%char) && negb (Ascii.eqb c Separator).

End filepath.

Module strconv.

Inductive NumError := ErrSyntax | ErrRange.

#[global] Instance NumError_eq_dec : EqDecision NumError.
Proof. solve_decision. Defined.

Definition is_digit (c : ascii) : bool :=
  (48 <=? byte_val c) && (byte_val c <=? 57).

Definition digit_char (d : Z) : ascii := ascii_of_N (Z.to_N (48 + d)).

(** The bytes a decimal integer is written with. *)
Definition numeric (c : ascii) : bool :=
  is_digit c || Ascii.eqb c "-"%char || Ascii.eqb c "+"%char.

(** The digit loop of [formatBits]: least significant digit first,
    each one pushed in front of what is already written. *)
Fixpoint fmt_digits (fuel : nat) (n : Z) (acc : bytes) : bytes :=
  match fuel with
  | O => acc
  | S f =>
      let acc' := digit_char (n mod 10) :: acc in
      if n <? 10 then acc' else fmt_digits f (n / 10) acc'
  end.

(** [strconv.Itoa]; twenty digits cover every 64-bit value. *)
Definition Itoa (i : Z) : bytes :=
  if i <? 0 then "-"%char :: fmt_digits 20 (- i) [] else fmt_digits 20 i [].

(** The accumulation loop of the parsers in base ten. *)
Fixpoint dec_value (s : bytes) (n : Z) : Z :=
  match s with
  | [] => n
  | c :: r => dec_value r (n * 10 + (byte_val c - 48))
  end.

(** [strconv.Atoi]: an optional sign, then one or more decimal digits;
    a value outside of [int] is clamped and reported as a range error. *)
Definition Atoi (s : bytes) : Z * option NumError :=
  let '(neg, ds) :=
    match s with
    | c :: r =>
        if Ascii.eqb c "-"%char then (true, r)
        else if Ascii.eqb c "+"%char then (false, r)
        else (false, s)
    | [] => (false, [])
    end in
  match ds with
  | [] => (0, Some ErrSyntax)
  | _ =>
      if forallb is_digit ds then
        let un := dec_value ds 0 in
        if negb neg && (MaxInt64 <? un) then (MaxInt64, Some ErrRange)
        else if neg && (- MinInt64 <? un) then (MinInt64, Some ErrRange)
        else ((if neg then - un else un), None)
      else (0, Some ErrSyntax)
  end.

(** [lower(c)] of strconv: [c | ('x' - 'X')]. *)
Definition lower (c : ascii) : ascii :=
  ascii_of_N (Z.to_N (Z.lor (byte_val c) 32)).

Definition maxUint64 : Z := 2 ^ 64 - 1.

(** What [underscoreOK] remembers of the byte before: the start of the
    number, a digit or base prefix, an underscore, anything else. *)
Inductive saw := SawStart | SawDigit | SawUnderscore | SawOther.

Fixpoint underscore_scan (hex : bool) (s : bytes) (sw : saw) : bool :=
  match s with
  | [] => match sw with SawUnderscore => false | _ => true end
  | c :: r =>
      if is_digit c
         || (hex && (97 <=? byte_val (lower c)) && (byte_val (lower c) <=? 102))
      then underscore_scan hex r SawDigit
      else if Ascii.eqb c "_"%char then
        match sw with
        | SawDigit => underscore_scan hex r SawUnderscore
        | _ => false
        end
      else match sw with
           | SawUnderscore => false
           | _ => underscore_scan hex r SawOther
           end
  end.

(** [underscoreOK]: underscores only between digits, or between a base
    prefix and a digit. *)
Definition underscoreOK (s : bytes) : bool :=
  let s := match s with
           | c :: r => if Ascii.eqb c "-"%char || Ascii.eqb c "+"%char then r else s
           | [] => s
           end in
  match s with
  | c0 :: c1 :: r =>
      if Ascii.eqb c0 "0"%char
         && (Ascii.eqb (lower c1) "b"%char || Ascii.eqb (lower c1) "o"%char
             || Ascii.eqb (lower c1) "x"%char)
      then underscore_scan (Ascii.eqb (lower c1) "x"%char) r SawDigit
      else underscore_scan false s SawStart
  | _ => underscore_scan false s SawStart
  end.

(** The digit loop of [ParseUint] with [base == 0] on entry: the result
    so far [n], whether an underscore was met, or the error return. *)
Fixpoint uint_loop (base cutoff : Z) (s : bytes) (n : Z) (underscores : bool)
  : (Z * bool) + (Z * NumError) :=
  match s with
  | [] => inl (n, underscores)
  | c :: r =>
      if Ascii.eqb c "_"%char then uint_loop base cutoff r n true
      else
        let d :=
          if is_digit c then Some (byte_val c - 48)
          else if (97 <=? byte_val (lower c)) && (byte_val (lower c) <=? 122)
               then Some (byte_val (lower c) - 97 + 10)
               else None in
        match d with
        | None => inr (0, ErrSyntax)
        | Some d =>
            if base <=? d then inr (0, ErrSyntax)
            else if cutoff <=? n then inr (maxUint64, ErrRange)
            else
              let n1 := n * base + d in
              if maxUint64 <? n1 then inr (maxUint64, ErrRange)
              else uint_loop base cutoff r n1 underscores
        end
  end.

(** [strconv.ParseUint(s, 0, 64)]. *)
Definition ParseUint0 (s : bytes) : Z * option NumError :=
  match s with
  | [] => (0, Some ErrSyntax)
  | c0 :: t =>
      let '(base, digits) :=
        if Ascii.eqb c0 "0"%char then
          match t with
          | c1 :: ((_ :: _) as r) =>
              if Ascii.eqb (lower c1) "b"%char then (2, r)
              else if Ascii.eqb (lower c1) "o"%char then (8, r)
              else if Ascii.eqb (lower c1) "x"%char then (16, r)
              else (8, t)
          | _ => (8, t)
          end
        else (10, s) in
      match uint_loop base (maxUint64 / base + 1) digits 0 false with
      | inr (v, e) => (v, Some e)
      | inl (n, underscores) =>
          if underscores && negb (underscoreOK s) then (0, Some ErrSyntax)
          else (n, None)
      end
  end.

(** [strconv.ParseInt(s, 0, 64)]. *)
Definition ParseInt0 (s : bytes) : Z * option NumError :=
  match s with
  | [] => (0, Some ErrSyntax)
  | c :: r =>
      let '(neg, s') :=
        if Ascii.eqb c "+"%char then (false, r)
        else if Ascii.eqb c "-"%char then (true, r)
        else (false, s) in
      match ParseUint0 s' with
      | (_, Some ErrSyntax) => (0, Some ErrSyntax)
      | (un, _) =>
          if negb neg && (2 ^ 63 <=? un) then (2 ^ 63 - 1, Some ErrRange)
          else if neg && (2 ^ 63 <? un) then (- 2 ^ 63, Some ErrRange)
          else ((if neg then - un else un), None)
      end
  end.

End strconv.

(** ** File sink: indexed names ([getFileIndex], [setFileIndex]) *)

Module FileOutput.

Definition getFileIndex (name : bytes) : Z :=
  let ext := filepath.Ext name in
  let withoutExt := strings.TrimSuffix name ext in
  let idx := strings.LastIndexByte withoutExt "_"%char in
  if negb (idx =? -1) then
    match strconv.Atoi (slice_from withoutExt (idx + 1)) with
    | (i, None) => i
    | (_, Some _) => -1
    end
  else -1.

Definition setFileIndex (name : bytes) (idx : Z) : bytes :=
  let idxS := strconv.Itoa idx in
  let ext := filepath.Ext name in
  let withoutExt := strings.TrimSuffix name ext in
  let i := strings.LastIndexByte withoutExt "_"%char in
  let withoutExt :=
    if negb (i =? -1) then
      match strconv.Atoi (slice_from withoutExt (i + 1)) with
      | (_, None) => slice_to withoutExt i
      | (_, Some _) => withoutExt
      end
    else withoutExt in
  withoutExt ++ B "_" ++ idxS ++ ext.

(** The name without its extension and without a numeric index: what
    [setFileIndex] keeps in front of the index it writes. *)
Definition stem (name : bytes) : bytes :=
  let ext := filepath.Ext name in
  let withoutExt := strings.TrimSuffix name ext in
  let i := strings.LastIndexByte withoutExt "_"%char in
  if negb (i =? -1) then
    match strconv.Atoi (slice_from withoutExt (i + 1)) with
    | (_, None) => slice_to withoutExt i
    | (_, Some _) => withoutExt
    end
  else withoutExt.

Definition withoutIndex (s : bytes) : bytes :=
  let i := strings.LastIndexByte s "_"%char in
  if negb (i =? -1) then slice_to s i else s.

End FileOutput.

(** ** Settings: the buffer-size parser ([bufferParser]) *)

Module Settings.

Inductive GoError :=
| NumErr (e : strconv.NumError)
| InvalidBuffer (size : bytes)
| SliceBounds.   (* the runtime error of an out-of-range slice, recovered *)

#[global] Instance GoError_eq_dec : EqDecision GoError.
Proof. solve_decision. Defined.

Definition KB : Z := 2 ^ 10.
Definition MB : Z := 2 ^ 20.
Definition GB : Z := 2 ^ 30.
Definition TB : Z := 2 ^ 40.

(** The class [[\da-f_]] under [(?i)]. *)
Definition hexish (c : ascii) : bool :=
  strconv.is_digit c
  || ((97 <=? byte_val (strings.lower c)) && (byte_val (strings.lower c) <=? 102))
  || Ascii.eqb c "_"%char.

(** [[\da-f_]+] over the whole of [s]. *)
Definition num_body (s : bytes) : bool :=
  match s with [] => false | _ => forallb hexish s end.

(** [(?:0b|0x|0o)?[\da-f_]+] over the whole of [s]. *)
Definition num_pattern (s : bytes) : bool :=
  num_body s
  || match s with
     | c0 :: c1 :: r =>
         Ascii.eqb c0 "0"%char
         && (Ascii.eqb (strings.lower c1) "b"%char
             || Ascii.eqb (strings.lower c1) "x"%char
             || Ascii.eqb (strings.lower c1) "o"%char)
         && num_body r
     | _ => false
     end.

(** The number pattern followed by [unit] and [b], both in either case. *)
Definition unit_pattern (unit : ascii) (s : bytes) : bool :=
  match rev s with
  | b :: u :: rbody =>
      Ascii.eqb (strings.lower b) "b"%char
      && Ascii.eqb (strings.lower u) unit
      && num_pattern (rev rbody)
  | _ => false
  end.

(** Under [(?i)] the letter [k] also folds to the Kelvin sign U+212A,
    three bytes in UTF-8. *)
Definition kelvin_pattern (s : bytes) : bool :=
  match rev s with
  | b :: k3 :: k2 :: k1 :: rbody =>
      Ascii.eqb (strings.lower b) "b"%char
      && (byte_val k1 =? 226) && (byte_val k2 =? 132) && (byte_val k3 =? 170)
      && num_pattern (rev rbody)
  | _ => false
  end.

Definition rB (s : bytes) : bool := num_pattern s.
Definition rKB (s : bytes) : bool := unit_pattern "k"%char s || kelvin_pattern s.
Definition rMB (s : bytes) : bool := unit_pattern "m"%char s.
Definition rGB (s : bytes) : bool := unit_pattern "g"%char s.
Definition rTB (s : bytes) : bool := unit_pattern "t"%char s.

(** [^[\n\t\r 0.\f\a]*$]. *)
Definition empt (s : bytes) : bool :=
  forallb (fun c => existsb (Z.eqb (byte_val c)) [10; 9; 13; 32; 48; 46; 12; 7]) s.

(** [buffer, err = strconv.ParseInt(size[:lmt], 0, 64); buffer *= unit].
    The slice expression panics when [lmt] is out of range; the deferred
    [recover] then stores the runtime error in [err] and [buffer] is
    still zero. *)
Definition parse_unit (size : bytes) (lmt unit : Z) : Z * option GoError :=
  if (lmt <? 0) || (len size <? lmt) then (0, Some SliceBounds)
  else
    let '(buffer, err) := strconv.ParseInt0 (slice_to size lmt) in
    (wrap64 (buffer * unit), NumErr <$> err).

Definition bufferParser (size rpl : bytes) : Z * option GoError :=
  let lmt := len size - 2 in
  let size := if empt size then rpl else size in
  let s := size in
  if rB s then
    let '(buffer, err) := strconv.ParseInt0 size in (buffer, NumErr <$> err)
  else if rKB s then parse_unit size lmt KB
  else if rMB s then parse_unit size lmt MB
  else if rGB s then parse_unit size lmt GB
  else if rTB s then parse_unit size lmt TB
  else (0, Some (InvalidBuffer size)).

(** The table of [TestParseDataUnit], each entry parsed with the
    replacement ["0"] as the test does. *)
Definition parse_table : list (bytes * Z) :=
  [ (B "42mb", 42 * 2 ^ 20); (B "4_2", 42); (B "00", 0);
    (B "0_600tb", 384 * 2 ^ 40); (B "0600Tb", 384 * 2 ^ 40);
    (B "0o12Mb", 10 * 2 ^ 20); (B "0b_10010001111_1kb", 2335 * 2 ^ 10);
    (B "1024", 2 ^ 10); (B "0b111", 7); (B "0x12gB", 18 * 2 ^ 30);
    (B "0x_67_7a_2f_cc_40_c6", 113774485586118);
    (B "121562380192901", 121562380192901) ].

End Settings.

(** ** The payload envelope *)

Module Protocol.

(** Modelled from the spec: [payloadMeta], [isOriginPayload] and
    [isRequestPayload] of the envelope code, which is not among the
    sources.  Every payload begins with the header line
    [<kind> <uuid> <nanos> <extra>\n]; the meta fields are the
    space-separated tokens of that line, the kind is the first token,
    [1] a request, [2] a response, [3] a replayed response. *)
Fixpoint split_on (sep : ascii) (s : bytes) (cur : bytes) : list bytes :=
  match s with
  | [] => [rev cur]
  | c :: r =>
      if Ascii.eqb c sep then rev cur :: split_on sep r []
      else split_on sep r (c :: cur)
  end.

Definition header_line (payload : bytes) : bytes :=
  let i := strings.IndexByte payload "010"%char in
  if i =? -1 then payload else slice_to payload i.

Definition payloadMeta (payload : bytes) : list bytes :=
  split_on " "%char (header_line payload) [].

Definition kind (payload : bytes) : bytes := hd [] (payloadMeta payload).

Definition isRequestPayload (payload : bytes) : bool :=
  bytes_eqb (kind payload) (B "1").

Definition isOriginPayload (payload : bytes) : bool :=
  bytes_eqb (kind payload) (B "1") || bytes_eqb (kind payload) (B "2").

End Protocol.

(** ** hash/fnv: the 32-bit FNV-1a hash *)

Module fnv.

Definition offset32 : Z := 2166136261.
Definition prime32 : Z := 16777619.

(** [Write] on a [sum32a]: xor the byte in, multiply by the prime in
    [uint32]. *)
Definition write32a (h : Z) (data : bytes) : Z :=
  fold_left (fun h c => wrap32u (Z.lxor h (byte_val c) * prime32)) data h.

(** [fnv.New32a()], one [Write], [Sum32()]. *)
Definition sum32a (data : bytes) : Z := write32a offset32 data.

End fnv.

(** ** TCP sink ([TCPOutput]) *)

Module OutputTCP.

(** Where a worker goroutine stands in [worker]. *)
Inductive pc :=
| Dial (retries : Z)       (* conn, err := o.connect(o.address), retried *)
| Recv                     (* data := <-o.buf[bufferIndex] *)
| Sending (data : bytes)   (* conn.Write(data); conn.Write(payloadSeparator) *)
| Requeue (data : bytes)   (* o.buf[bufferIndex] <- data *)
| Spawn                    (* go o.worker(bufferIndex) *)
| Break                    (* break; the deferred conn.Close() *)
| Closed.                  (* the goroutine is over *)

Record worker := { bufferIndex : nat; at_pc : pc }.

(** A buffered channel is the list of the values it holds, oldest first:
    a send appends, a receive takes the head. *)
Record TCPOutput := {
  sticky : bool;
  buf : list (list bytes);
  capacity : nat;
  workers : list worker;
  wire : list (nat * bytes);   (* what each worker wrote to its connection *)
  bufStats : list Z
}.

Definition set_buf (o : TCPOutput) (b : list (list bytes)) : TCPOutput :=
  {| sticky := sticky o; buf := b; capacity := capacity o;
     workers := workers o; wire := wire o; bufStats := bufStats o |}.

Definition set_workers (o : TCPOutput) (w : list worker) : TCPOutput :=
  {| sticky := sticky o; buf := buf o; capacity := capacity o;
     workers := w; wire := wire o; bufStats := bufStats o |}.

Definition set_wire (o : TCPOutput) (w : list (nat * bytes)) : TCPOutput :=
  {| sticky := sticky o; buf := buf o; capacity := capacity o;
     workers := workers o; wire := w; bufStats := bufStats o |}.

Definition set_bufStats (o : TCPOutput) (st : list Z) : TCPOutput :=
  {| sticky := sticky o; buf := buf o; capacity := capacity o;
     workers := workers o; wire := wire o; bufStats := st |}.

(** [NewTCPOutput]: ten channels of a hundred and a worker on each when
    sticky, else one channel of a thousand shared by ten workers. *)
Definition NewTCPOutput (sticky : bool) : TCPOutput :=
  if sticky then
    {| sticky := true; buf := replicate 10 []; capacity := 100;
       workers := map (fun i => {| bufferIndex := i; at_pc := Dial 1 |}) (seq 0 10);
       wire := []; bufStats := [] |}
  else
    {| sticky := false; buf := [[]]; capacity := 1000;
       workers := replicate 10 {| bufferIndex := 0; at_pc := Dial 1 |};
       wire := []; bufStats := [] |}.

(** What a call does: it returns, it waits on a full channel, or it
    panics on an index out of range. *)
Inductive outcome :=
| Returned (n : Z) (err : option unit) (o : TCPOutput)
| Blocked
| Panicked.

Section Sink.

Variable payloadMeta : bytes -> list bytes.
Variable isOriginPayload : bytes -> bool.
Variable payloadSeparator : bytes.
Variable outputTCPStats : bool.

(** [int(hasher.Sum32()) % 10]; indexing the meta fields panics when the
    header has fewer than two. *)
Definition getBufferIndex (o : TCPOutput) (data : bytes) : option Z :=
  if negb (sticky o) then Some 0
  else
    match payloadMeta data !! 1%nat with
    | Some uuid => Some (fnv.sum32a uuid mod 10)
    | None => None
    end.

Definition Write (o : TCPOutput) (data : bytes) : outcome :=
  if negb (isOriginPayload data) then Returned (len data) None o
  else
    let newBuf := copy (replicate (length data) "000"%char) data in
    match getBufferIndex o data with
    | None => Panicked
    | Some bufferIndex =>
        match buf o !! Z.to_nat bufferIndex with
        | None => Panicked
        | Some q =>
            if (length q <? capacity o)%nat then
              let o := set_buf o (<[Z.to_nat bufferIndex := q ++ [newBuf]]> (buf o)) in
              let o := if outputTCPStats
                       then set_bufStats o (bufStats o ++ [len (q ++ [newBuf])])
                       else o in
              Returned (len data) None o
            else Blocked
        end
    end.

Definition set_pc (o : TCPOutput) (k : nat) (w : worker) (p : pc) : TCPOutput :=
  set_workers o (<[k := {| bufferIndex := bufferIndex w; at_pc := p |}]> (workers o)).

(** One move of worker [k]; [io1] and [io2] say whether the network
    calls of the move succeed ([io1] the dial or the write of the
    payload, whose error is dropped; [io2] the write of the separator).
    [None]: the worker cannot move (empty channel on a receive, full
    channel on a send, goroutine over). *)
Definition worker_step (o : TCPOutput) (k : nat) (io1 io2 : bool) : option TCPOutput :=
  match workers o !! k with
  | None => None
  | Some w =>
      match at_pc w with
      | Dial retries =>
          Some (set_pc o k w (if io1 then Recv else Dial (retries + 1)))
      | Recv =>
          match buf o !! bufferIndex w with
          | Some (data :: q) =>
              Some (set_pc (set_buf o (<[bufferIndex w := q]> (buf o))) k w (Sending data))
          | _ => None
          end
      | Sending data =>
          let written := (if io1 then [(k, data)] else [])
                         ++ (if io2 then [(k, payloadSeparator)] else []) in
          Some (set_pc (set_wire o (wire o ++ written)) k w
                       (if io2 then Recv else Requeue data))
      | Requeue data =>
          match buf o !! bufferIndex w with
          | Some q =>
              if (length q <? capacity o)%nat then
                Some (set_pc (set_buf o (<[bufferIndex w := q ++ [data]]> (buf o))) k w Spawn)
              else None
          | None => None
          end
      | Spawn =>
          Some (set_workers o
                  (<[k := {| bufferIndex := bufferIndex w; at_pc := Break |}]> (workers o)
                   ++ [{| bufferIndex := bufferIndex w; at_pc := Dial 1 |}]))
      | Break => Some (set_pc o k w Closed)
      | Closed => None
      end
  end.

(** The sink as a whole: callers of [Write] and the workers interleave. *)
Inductive event :=
| EvWrite (data : bytes)
| EvWorker (k : nat) (io1 io2 : bool).

Definition step (o : TCPOutput) (e : event) : option TCPOutput :=
  match e with
  | EvWrite data =>
      match Write o data with
      | Returned _ _ o' => Some o'
      | _ => None
      end
  | EvWorker k io1 io2 => worker_step o k io1 io2
  end.

Fixpoint run (o : TCPOutput) (es : list event) : option TCPOutput :=
  match es with
  | [] => Some o
  | e :: es' =>
      match step o e with
      | Some o' => run o' es'
      | None => None
      end
  end.

(** The payloads a worker holds between a receive and the end of its
    iteration. *)
Definition in_hand (w : worker) : list bytes :=
  match at_pc w with
  | Sending d | Requeue d => [d]
  | _ => []
  end.

(** Every payload in a channel, in a worker's hands or on a connection
    passed the origin test of [Write]. *)
Definition only_origin (o : TCPOutput) : Prop :=
  Forall (Forall (fun d => isOriginPayload d = true)) (buf o)
  /\ Forall (fun w => Forall (fun d => isOriginPayload d = true) (in_hand w)) (workers o)
  /\ Forall (fun kb => kb.2 = payloadSeparator \/ isOriginPayload kb.2 = true) (wire o).

End Sink.

End OutputTCP.

(** ** The HTTP helpers of the [proto] package *)

(** The client calls these helpers of the [proto] package, which is not
    among the sources; the client is embedded over any implementation of
    them. *)
Record Proto := {
  Header : bytes -> bytes -> bytes;       (* proto.Header(payload, name) *)
  Status : bytes -> bytes;                (* proto.Status(payload) *)
  Body : bytes -> bytes;                  (* proto.Body(payload) *)
  Path : bytes -> bytes;                  (* proto.Path(payload) *)
  SetHost : bytes -> bytes -> bytes -> bytes;
  SetPath : bytes -> bytes -> bytes;
  SetHeader : bytes -> bytes -> bytes -> bytes
}.

(** [proto.EmptyLine]. *)
Definition EmptyLine : bytes := B "\r\n\r\n".

(** Modelled from the spec: the helpers of the [proto] package as the
    specification describes them, "by header scanning, not parsing;
    case-insensitive header names".  The head of a message is what comes
    before its first empty line; the status (and the path of a request)
    is the second token of the first line; a header's value is what
    follows the colon, without leading blanks; the body is what follows
    the empty line. *)
Module ProtoSpec.

Fixpoint split_crlf (s cur : bytes) : list bytes :=
  match s with
  | [] => [rev cur]
  | c :: r =>
      match r with
      | d :: r' =>
          if Ascii.eqb c "013"%char && Ascii.eqb d "010"%char
          then rev cur :: split_crlf r' []
          else split_crlf r (c :: cur)
      | [] => [rev (c :: cur)]
      end
  end.

Definition head (payload : bytes) : bytes :=
  let i := strings.Index payload EmptyLine in
  if i =? -1 then payload else slice_to payload i.

Definition head_lines (payload : bytes) : list bytes := split_crlf (head payload) [].

Definition second_token (line : bytes) : bytes :=
  match Protocol.split_on " "%char line [] with
  | _ :: t :: _ => t
  | _ => []
  end.

Definition Status (payload : bytes) : bytes := second_token (hd [] (head_lines payload)).

Fixpoint trim_left (s : bytes) : bytes :=
  match s with
  | c :: r => if Ascii.eqb c " "%char || Ascii.eqb c "009"%char then trim_left r else s
  | [] => []
  end.

Definition header_of (name line : bytes) : option bytes :=
  let i := strings.IndexByte line ":"%char in
  if i =? -1 then None
  else if bytes_eqb (map strings.lower (slice_to line i)) (map strings.lower name)
       then Some (trim_left (slice_from line (i + 1))) else None.

Fixpoint find_header (name : bytes) (ls : list bytes) : bytes :=
  match ls with
  | [] => []
  | l :: r => match header_of name l with Some v => v | None => find_header name r end
  end.

Definition Header (payload name : bytes) : bytes :=
  find_header name (tl (head_lines payload)).

Definition Body (payload : bytes) : bytes :=
  let i := strings.Index payload EmptyLine in
  if i =? -1 then [] else slice_from payload (i + len EmptyLine).

Definition join_crlf (ls : list bytes) : bytes :=
  match ls with
  | [] => []
  | l :: r => l ++ concat (map (fun x => B "\r\n" ++ x) r)
  end.

Definition rest (payload : bytes) : bytes :=
  slice_from payload (len (head payload)).

Definition SetHeader (payload name value : bytes) : bytes :=
  let ls := head_lines payload in
  let line := name ++ B ": " ++ value in
  let ls' :=
    if existsb (fun l => match header_of name l with Some _ => true | None => false end) (tl ls)
    then hd [] ls :: map (fun l => match header_of name l with
                                   | Some _ => line | None => l end) (tl ls)
    else hd [] ls :: line :: tl ls in
  join_crlf ls' ++ rest payload.

Definition SetPath (payload path : bytes) : bytes :=
  let ls := head_lines payload in
  let first :=
    match Protocol.split_on " "%char (hd [] ls) [] with
    | m :: _ :: r => m ++ concat (map (fun x => B " " ++ x) (path :: r))
    | _ => hd [] ls
    end in
  join_crlf (first :: tl ls) ++ rest payload.

Definition SetHost (payload url host : bytes) : bytes :=
  SetHeader payload (B "Host") host.

Definition ops : Proto :=
  Build_Proto Header Status Body Status SetHost SetPath SetHeader.

End ProtoSpec.

(** ** Replay HTTP client ([HTTPClient]) *)

Module Client.

Definition CR : ascii := "013"%char.
Definition LF : ascii := "010"%char.
Definition CRLF : bytes := [CR; LF].

Inductive NetErr := EOF | EPIPE | ErrTimeout | ErrRefused | ErrUnreachable | ErrOther.

#[global] Instance NetErr_eq_dec : EqDecision NetErr.
Proof. solve_decision. Defined.

(** The deadlines the client sets: the probe of [isAlive], the write
    deadline, [Timeout] and [Timeout / 5] for reads. *)
Inductive Deadline := Probe | WriteBy | Full | Fifth.

(** What the peer lets a read see next: bytes that arrived, or an error. *)
Inductive arrival := Data (d : bytes) | Fail (e : NetErr).

(** A connection as the client sees it.  [incoming]: what successive
    reads meet; once it is used up every read fails with [at_end].
    [write_results]: the results of successive writes, success once used
    up.  [lines]: what successive [ReadLine] calls on the proxy's reply
    return.  [handshake]: the result of the TLS handshake.  [written] and
    [deadlines] record what the client did. *)
Record Conn := {
  incoming : list arrival;
  at_end : NetErr;
  write_results : list (option NetErr);
  lines : list (bytes + NetErr);
  handshake : option NetErr;
  tls : bool;
  written : list bytes;
  deadlines : list Deadline
}.

Definition set_incoming (c : Conn) (i : list arrival) : Conn :=
  {| incoming := i; at_end := at_end c; write_results := write_results c;
     lines := lines c; handshake := handshake c; tls := tls c;
     written := written c; deadlines := deadlines c |}.

Definition SetDeadline (c : Conn) (d : Deadline) : Conn :=
  {| incoming := incoming c; at_end := at_end c; write_results := write_results c;
     lines := lines c; handshake := handshake c; tls := tls c;
     written := written c; deadlines := deadlines c ++ [d] |}.

(** [conn.Read(p)] with [len(p) = cap]: the bytes read, the error, the
    connection afterwards. *)
Definition Read (c : Conn) (cap : nat) : bytes * option NetErr * Conn :=
  match incoming c with
  | [] => ([], Some (at_end c), c)
  | Fail e :: rest => ([], Some e, set_incoming c rest)
  | Data d :: rest =>
      if (length d <=? cap)%nat then (d, None, set_incoming c rest)
      else (take cap d, None, set_incoming c (Data (drop cap d) :: rest))
  end.

(** [conn.Write(data)]. *)
Definition ConnWrite (c : Conn) (data : bytes) : option NetErr * Conn :=
  let '(r, rest) := match write_results c with
                    | [] => (None, [])
                    | r :: rest => (r, rest)
                    end in
  (r, {| incoming := incoming c; at_end := at_end c; write_results := rest;
         lines := lines c; handshake := handshake c; tls := tls c;
         written := (match r with Some _ => written c | None => written c ++ [data] end);
         deadlines := deadlines c |}).

(** [br.ReadLine()] on the reader that [Connect] wraps around the
    connection. *)
Definition ReadLine (c : Conn) : (bytes + NetErr) * Conn :=
  match lines c with
  | [] => (inr EOF, c)
  | l :: rest =>
      (l, {| incoming := incoming c; at_end := at_end c;
             write_results := write_results c; lines := rest;
             handshake := handshake c; tls := tls c;
             written := written c; deadlines := deadlines c |})
  end.

Definition wrap_tls (c : Conn) : Conn :=
  {| incoming := incoming c; at_end := at_end c; write_results := write_results c;
     lines := lines c; handshake := handshake c; tls := true;
     written := written c; deadlines := deadlines c |}.

Record URL := { Scheme : bytes; Host : bytes; User : option bytes }.

Record HTTPClientConfig := {
  FollowRedirects : Z;
  Debug : bool;
  OriginalHost : bool;
  ResponseBufferSize : Z;
  CompatibilityMode : bool
}.

(** [dials]: what successive [net.DialTimeout] calls return. *)
Record HTTPClient := {
  baseURL : bytes;
  scheme : bytes;
  host : bytes;
  auth : bytes;
  conn : option Conn;
  proxy : option URL;
  proxyAuth : bytes;
  respBuf : bytes;
  config : HTTPClientConfig;
  redirectsCount : Z;
  dials : list (Conn + NetErr)
}.

Definition set_conn (c : HTTPClient) (k : option Conn) : HTTPClient :=
  {| baseURL := baseURL c; scheme := scheme c; host := host c; auth := auth c;
     conn := k; proxy := proxy c; proxyAuth := proxyAuth c; respBuf := respBuf c;
     config := config c; redirectsCount := redirectsCount c; dials := dials c |}.

Definition set_dials (c : HTTPClient) (d : list (Conn + NetErr)) : HTTPClient :=
  {| baseURL := baseURL c; scheme := scheme c; host := host c; auth := auth c;
     conn := conn c; proxy := proxy c; proxyAuth := proxyAuth c; respBuf := respBuf c;
     config := config c; redirectsCount := redirectsCount c; dials := d |}.

Definition set_respBuf (c : HTTPClient) (b : bytes) : HTTPClient :=
  {| baseURL := baseURL c; scheme := scheme c; host := host c; auth := auth c;
     conn := conn c; proxy := proxy c; proxyAuth := proxyAuth c; respBuf := b;
     config := config c; redirectsCount := redirectsCount c; dials := dials c |}.

Definition set_redirectsCount (c : HTTPClient) (n : Z) : HTTPClient :=
  {| baseURL := baseURL c; scheme := scheme c; host := host c; auth := auth c;
     conn := conn c; proxy := proxy c; proxyAuth := proxyAuth c; respBuf := respBuf c;
     config := config c; redirectsCount := n; dials := dials c |}.

(** A call returns, or panics with a value that is a string or an error. *)
Inductive panic := PanicString (msg : bytes) | PanicError.

Inductive result (A : Type) := Ret (a : A) | Panics (p : panic) | OutOfFuel.
Arguments Ret {A} a.
Arguments Panics {A} p.
Arguments OutOfFuel {A}.

Definition readChunkSize : Z := 64 * 1024.
Definition maxResponseSize : Z := 1073741824.
Definition chunkedSuffix : bytes := B "0\r\n\r\n".

Definition HTTP_UNKNOWN_ERROR : bytes := B "520".
Definition HTTP_CONNECTION_ERROR : bytes := B "521".
Definition HTTP_CONNECTION_TIMEOUT : bytes := B "522".
Definition HTTP_UNREACHABLE : bytes := B "523".
Definition HTTP_TIMEOUT : bytes := B "524".

Definition errorPayloadTemplate : bytes :=
  B "HTTP/1.1 202 Accepted\r\nDate: Mon, 17 Aug 2015 14:10:11 GMT\r\nContent-Length: 0\r\nContent-Type: text/plain; charset=utf-8\r\n\r\n".

(** [errorPayload]; [now] is [time.Now().Format(time.RFC1123)]. *)
Definition errorPayload (now : bytes) (errorCode : bytes) : bytes :=
  let payload := copy (replicate (length errorPayloadTemplate) "000"%char) errorPayloadTemplate in
  let payload := copy_at payload 29 58 now in
  copy_at payload 9 12 errorCode.


(** *** The read loop of [send] *)

(** The local variables of [send] that the loop works on, and the client
    with its buffer and connection. *)
Record loop := {
  lc : HTTPClient;
  readBytes : Z;
  err : option NetErr;
  currentChunk : option bytes;
  timeout : Deadline;
  chunked : bool;
  contentLength : Z;
  currentContentLength : Z;
  chunks : Z
}.

Definition with_lc (st : loop) (c : HTTPClient) : loop :=
  {| lc := c; readBytes := readBytes st; err := err st; currentChunk := currentChunk st;
     timeout := timeout st; chunked := chunked st; contentLength := contentLength st;
     currentContentLength := currentContentLength st; chunks := chunks st |}.

Definition with_read (st : loop) (c : HTTPClient) (n : Z) (e : option NetErr) : loop :=
  {| lc := c; readBytes := readBytes st + n; err := e; currentChunk := currentChunk st;
     timeout := timeout st; chunked := chunked st; contentLength := contentLength st;
     currentContentLength := currentContentLength st; chunks := chunks st + 1 |}.

Definition with_err (st : loop) (e : option NetErr) : loop :=
  {| lc := lc st; readBytes := readBytes st; err := e; currentChunk := currentChunk st;
     timeout := timeout st; chunked := chunked st; contentLength := contentLength st;
     currentContentLength := currentContentLength st; chunks := chunks st |}.

Definition with_currentChunk (st : loop) (b : option bytes) : loop :=
  {| lc := lc st; readBytes := readBytes st; err := err st; currentChunk := b;
     timeout := timeout st; chunked := chunked st; contentLength := contentLength st;
     currentContentLength := currentContentLength st; chunks := chunks st |}.

Definition with_timeout (st : loop) (d : Deadline) : loop :=
  {| lc := lc st; readBytes := readBytes st; err := err st; currentChunk := currentChunk st;
     timeout := d; chunked := chunked st; contentLength := contentLength st;
     currentContentLength := currentContentLength st; chunks := chunks st |}.

Definition with_chunked (st : loop) (b : bool) : loop :=
  {| lc := lc st; readBytes := readBytes st; err := err st; currentChunk := currentChunk st;
     timeout := timeout st; chunked := b; contentLength := contentLength st;
     currentContentLength := currentContentLength st; chunks := chunks st |}.

Definition with_contentLength (st : loop) (n : Z) : loop :=
  {| lc := lc st; readBytes := readBytes st; err := err st; currentChunk := currentChunk st;
     timeout := timeout st; chunked := chunked st; contentLength := n;
     currentContentLength := currentContentLength st; chunks := chunks st |}.

Definition add_currentContentLength (st : loop) (n : Z) : loop :=
  {| lc := lc st; readBytes := readBytes st; err := err st; currentChunk := currentChunk st;
     timeout := timeout st; chunked := chunked st; contentLength := contentLength st;
     currentContentLength := currentContentLength st + n; chunks := chunks st |}.

(** The 1xx case: [copy(c.respBuf, c.respBuf[deleteLen:readBytes])],
    [readBytes -= deleteLen], [chunks--], the deadline set anew. *)
Definition drop_head (st : loop) (deleteLen : Z) : loop :=
  {| lc := set_respBuf (lc st)
             (copy (respBuf (lc st)) (slice (respBuf (lc st)) deleteLen (readBytes st)));
     readBytes := readBytes st - deleteLen; err := err st; currentChunk := currentChunk st;
     timeout := Full; chunked := chunked st; contentLength := contentLength st;
     currentContentLength := currentContentLength st; chunks := chunks st - 1 |}.

(** How one pass through the loop body ends: at a [continue], at the end
    of the body, at a [break]. *)
Inductive flow := Continue | Falls | Breaks.

(** [c.respBuf[:readBytes]]. *)
Definition view (st : loop) : bytes := slice_to (respBuf (lc st)) (readBytes st).

(** What the client keeps through a call: its configuration, the count
    of redirects, the size of its buffer. *)
Definition kept (c c' : HTTPClient) : Prop :=
  config c' = config c /\ redirectsCount c' = redirectsCount c
  /\ length (respBuf c') = length (respBuf c).

(** The chunk buffer, once made, is not empty. *)
Definition chunk_ok (st : loop) : Prop :=
  match currentChunk st with Some b => (0 < length b)%nat | None => True end.

(** What [conn.Read(buf[i:])] leaves in [buf] when it read [d]. *)
Definition store (buf : bytes) (i : Z) (d : bytes) : bytes :=
  slice_to buf i ++ d ++ slice_from buf (i + len d).

(** Two stages of the loop on a stream of heads [hs] followed by the
    head [fh].  Before [fh] is in the buffer: no framing is known, the
    buffer has room, and the buffer with the segments still to come make
    up the heads not yet dropped, [fh] and what follows it.  After: the
    buffer starts with [fh]. *)
Definition awaiting (c0 : HTTPClient) (fh : bytes) (hs : list bytes) (st : loop) : Prop :=
  chunked st = false /\ contentLength st = -1 /\ kept c0 (lc st)
  /\ 0 <= readBytes st < len (respBuf (lc st))
  /\ exists k segs rest extra,
       conn (lc st) = Some k /\ incoming k = map Data segs ++ rest
       /\ view st ++ concat segs = concat hs ++ fh ++ extra.

Definition arrived (fh : bytes) (st : loop) : Prop :=
  len fh <= readBytes st /\ slice_to (respBuf (lc st)) (len fh) = fh.

Section Sending.

Variable P : Proto.
Variable now : bytes.                      (* time.Now().Format(time.RFC1123) *)
Variable goClient : bytes -> bytes + NetErr.   (* SendGoClient's round trip *)

Definition Disconnect (c : HTTPClient) : HTTPClient :=
  match conn c with
  | Some _ => set_conn c None
  | None => c
  end.

Definition isProxy (c : HTTPClient) : bool :=
  match proxy c with Some _ => true | None => false end.

Definition defaultPorts (scheme : bytes) : bytes :=
  if bytes_eqb scheme (B "http") then B "80"
  else if bytes_eqb scheme (B "https") then B "443"
  else [].

(** [net.DialTimeout]: the next result the network has in store. *)
Definition DialTimeout (c : HTTPClient) : (Conn + NetErr) * HTTPClient :=
  match dials c with
  | [] => (inr ErrRefused, c)
  | d :: rest => (d, set_dials c rest)
  end.

(** The loop of [Connect] that reads the proxy's reply up to its empty
    line. *)
Fixpoint skip_reply (ls : list (bytes + NetErr)) : option NetErr * list (bytes + NetErr) :=
  match ls with
  | [] => (Some EOF, [])
  | inr e :: rest => (Some e, rest)
  | inl l :: rest => if (length l =? 0)%nat then (None, rest) else skip_reply rest
  end.

Definition set_lines (k : Conn) (ls : list (bytes + NetErr)) : Conn :=
  {| incoming := incoming k; at_end := at_end k; write_results := write_results k;
     lines := ls; handshake := handshake k; tls := tls k;
     written := written k; deadlines := deadlines k |}.

(** The TLS part of [Connect], common to both ways of dialling. *)
Definition Connect_tls (c : HTTPClient) (k : Conn) : HTTPClient * result (option NetErr) :=
  if bytes_eqb (scheme c) (B "https") then
    match handshake k with
    | Some e => (set_conn c (Some k), Ret (Some e))
    | None => (set_conn c (Some (wrap_tls k)), Ret None)
    end
  else (set_conn c (Some k), Ret None).

Definition Connect (c : HTTPClient) : HTTPClient * result (option NetErr) :=
  let c := Disconnect c in
  let toDial :=
    if (strings.IndexByte (host c) ":"%char =? -1)
    then host c ++ B ":" ++ defaultPorts (scheme c) else host c in
  match proxy c with
  | Some px =>
      if negb (bytes_eqb (Scheme px) (B "http")) then
        (c, Panics (PanicString (B "Unsupported HTTP Proxy method")))
      else
        match DialTimeout c with
        | (inr e, c) => (c, Ret (Some e))
        | (inl k, c) =>
            if bytes_eqb (scheme c) (B "https") then
              let k := (ConnWrite k (B "CONNECT " ++ toDial ++ B " HTTP/1.1\r\n")).2 in
              let k := if negb (bytes_eqb (proxyAuth c) [])
                       then (ConnWrite k (B "Proxy-Authorization: " ++ proxyAuth c ++ B "\r\n")).2
                       else k in
              let k := (ConnWrite k (B "\r\n")).2 in
              match ReadLine k with
              | (inr e, k) => (set_conn c (Some k), Ret (Some e))
              | (inl l, k) =>
                  if len l <? 12 then
                    (set_conn c (Some k),
                     Panics (PanicString (B "HTTP proxy did not respond correctly")))
                  else if negb (bytes_eqb (slice l 9 12) (B "200")) then
                    (set_conn c (Some k),
                     Panics (PanicString (B "HTTP proxy did not respond correctly")))
                  else
                    match skip_reply (lines k) with
                    | (Some e, ls) => (set_conn c (Some (set_lines k ls)), Ret (Some e))
                    | (None, ls) => Connect_tls c (set_lines k ls)
                    end
              end
            else Connect_tls c k
        end
  | None =>
      match DialTimeout c with
      | (inr e, c) => (c, Ret (Some e))
      | (inl k, c) => Connect_tls c k
      end
  end.

(** [isAlive]: the connection, the client and [readBytes] afterwards; it
    is called with a connection at hand. *)
Definition isAlive (c : HTTPClient) (k : Conn) (readBytes : Z)
  : result (bool * HTTPClient * Z) :=
  let k := SetDeadline k Probe in
  match respBuf c with
  | [] => Panics PanicError
  | _ =>
      let '(d, err, k) := Read k 1 in
      let c := set_conn (set_respBuf c (copy (respBuf c) d)) (Some k) in
      if bool_decide (err = Some EOF) then Ret (false, c, readBytes)
      else if bool_decide (err = Some EPIPE) then Ret (false, c, readBytes)
      else Ret (true, c, if negb (len d =? 0) then readBytes + len d else readBytes)
  end.

(** Heads of responses.  A head is a run of bytes that ends with its
    first empty line; it is informational when the client takes it for a
    1xx head (the transfer encoding is tested before the status), final
    when it starts with [HTTP] and its status is not 1xx. *)
Definition is_head (h : bytes) : Prop :=
  strings.Index h EmptyLine <> -1
  /\ strings.Index h EmptyLine + len EmptyLine = len h.

Definition says_chunked (h : bytes) : bool :=
  bytes_eqb (Header P h (B "Transfer-Encoding")) (B "chunked").

Definition status_1xx (h : bytes) : bool :=
  (100 <=? (strconv.Atoi (Status P h)).1) && ((strconv.Atoi (Status P h)).1 <? 200).

Definition informational (h : bytes) : Prop :=
  is_head h /\ says_chunked h = false /\ status_1xx h = true.

Definition final_head (h : bytes) : Prop :=
  is_head h /\ slice_to h 4 = B "HTTP" /\ status_1xx h = false.

(** The helpers look at the head of a message only: what follows the
    first empty line does not change the status or the transfer
    encoding they report. *)
Definition reads_head : Prop :=
  forall b, strings.Index b EmptyLine <> -1 ->
    Status P b = Status P (slice_to b (strings.Index b EmptyLine + len EmptyLine))
    /\ Header P b (B "Transfer-Encoding")
       = Header P (slice_to b (strings.Index b EmptyLine + len EmptyLine))
           (B "Transfer-Encoding").

(** The framing block of the first branch, after a read of [n] bytes:
    a response whose framing is known only counts the bytes; otherwise,
    once the empty line is in the buffer, the framing is read off the
    head, and a 1xx head is dropped from the buffer. *)
Definition frame (st : loop) (n : Z) : flow * loop :=
  if chunked st || negb (contentLength st =? -1) then
    (Falls, add_currentContentLength st n)
  else
    let firstEmptyLine := strings.Index (view st) EmptyLine in
    if negb (firstEmptyLine =? -1) then
      if bytes_eqb (Header P (view st) (B "Transfer-Encoding")) (B "chunked") then
        (Falls, add_currentContentLength (with_chunked st true) (len (Body P (view st))))
      else
        let status := (strconv.Atoi (Status P (view st))).1 in
        if (100 <=? status) && (status <? 200) then
          let deleteLen := firstEmptyLine + len EmptyLine in
          (Continue, drop_head st deleteLen)
        else if (status =? 204) || (status =? 304) then
          (Breaks, with_contentLength st 0)
        else
          let l := Header P (view st) (B "Content-Length") in
          let st := if 0 <? len l
                    then with_contentLength st (strconv.Atoi l).1 else st in
          (Falls, add_currentContentLength st (len (Body P (view st))))
    else (Falls, st).

(** The test for the end of the body; [tail] is what the chunked suffix
    is looked for in, [unframed] what happens when no framing is known. *)
Definition body_done (st : loop) (tail : bytes) (unframed : flow * loop) : flow * loop :=
  if chunked st then
    if strings.HasSuffix tail chunkedSuffix then (Breaks, st) else (Falls, st)
  else if negb (contentLength st =? -1) then
    if contentLength st <? currentContentLength st then
      (Breaks, with_lc st (Disconnect (lc st)))
    else if currentContentLength st =? contentLength st then (Breaks, st)
    else (Falls, st)
  else unframed.

(** The first branch of the body after its read: the framing block, the
    test for the end of the body, the test of the read error. *)
Definition buffered (st : loop) (n : Z) : flow * loop :=
  match frame st n with
  | (Falls, st) =>
      match body_done st (view st) (Falls, st) with
      | (Falls, st) =>
          match err st with
          | Some e =>
              (Breaks, if bool_decide (e = EOF) then with_err st None else st)
          | None => (Falls, st)
          end
      | r => r
      end
  | r => r
  end.

(** One pass through the body of the loop, with the connection [k] that
    [c.conn] holds. *)
Definition pass (st : loop) (k : Conn) : flow * loop :=
  let k := SetDeadline k (timeout st) in
  let c := lc st in
  if readBytes st <? len (respBuf c) then
    let '(d, e, k) := Read k (Z.to_nat (len (respBuf c) - readBytes st)) in
    let c := set_conn (set_respBuf c (store (respBuf c) (readBytes st) d)) (Some k) in
    buffered (with_read st c (len d) e) (len d)
  else
    let chunk := match currentChunk st with
                 | Some b => b
                 | None => replicate (Z.to_nat readChunkSize) "000"%char
                 end in
    let '(d, e, k) := Read k (length chunk) in
    let chunk := copy chunk d in
    let st := with_currentChunk st (Some chunk) in
    let st := with_read st (set_conn c (Some k)) (len d) e in
    let st := add_currentContentLength st (len d) in
    match body_done st (slice_to chunk (len d))
                    (Breaks, with_lc st (Disconnect (lc st))) with
    | (Falls, st) =>
        match err st with
        | Some _ => (Breaks, st)
        | None => (Falls, st)
        end
    | r => r
    end.

(** The loop; a pass that falls through ends with the size test and the
    shorter deadline.  Calling a method of [c.conn] when it is nil
    panics. *)
Fixpoint read_loop (fuel : nat) (st : loop) : result loop :=
  match fuel with
  | O => OutOfFuel
  | S fuel =>
      match conn (lc st) with
      | None => Panics PanicError
      | Some k =>
          match pass st k with
          | (Breaks, st) => Ret st
          | (Continue, st) => read_loop fuel st
          | (Falls, st) =>
              if maxResponseSize <=? readBytes st then Ret st
              else read_loop fuel (with_timeout st Fifth)
          end
      end
  end.

(** What the reads of a connection can still deliver, and with it a
    bound on the passes of the loop. *)
Definition pending (k : Conn) : nat :=
  list_sum (map (fun a => match a with Data d => S (length d) | Fail _ => 1%nat end)
                (incoming k)).

Definition passes (st : loop) : nat :=
  match conn (lc st) with
  | Some k => S (2 * pending k + Z.to_nat (readBytes st))
  | None => 1
  end.

(** [send] up to the end of its loop. *)
Definition send_read (c : HTTPClient) (k : Conn) (data : bytes) (readBytes : Z)
  : result loop + (bytes * option NetErr * HTTPClient) :=
  match ConnWrite k data with
  | (Some e, k) =>
      inr (errorPayload now HTTP_TIMEOUT, Some e, Disconnect (set_conn c (Some k)))
  | (None, k) =>
      let st := {| lc := set_conn c (Some k); readBytes := readBytes; err := None;
                   currentChunk := None; timeout := Full; chunked := false;
                   contentLength := -1; currentContentLength := 0; chunks := 0 |} in
      inl (read_loop (passes st) st)
  end.

(** [send] after its loop; [Send] is the method the redirect calls. *)
Definition send_finish
    (Send : HTTPClient -> bytes -> HTTPClient * result (bytes * option NetErr))
    (data : bytes) (st : loop) : HTTPClient * result (bytes * option NetErr) :=
  let c := lc st in
  if (match err st with Some _ => true | None => false end) && (readBytes st =? 0) then
    (Disconnect c, Ret (errorPayload now HTTP_TIMEOUT, err st))
  else if (readBytes st <? 4)
          || (if len (respBuf c) <? 4 then false
              else negb (bytes_eqb (slice_to (respBuf c) 4) (B "HTTP"))) then
    (* the arguments of Debug are evaluated: c.respBuf[:maxRead] *)
    if len (respBuf c) <? Z.min 100 (readBytes st) then (c, Panics PanicError)
    else (Disconnect c, Ret (errorPayload now HTTP_UNKNOWN_ERROR, err st))
  else if len (respBuf c) <? 4 then (c, Panics PanicError)
  else
    let readBytes := Z.min (readBytes st) (len (respBuf c)) in
    let payload := copy (replicate (Z.to_nat readBytes) "000"%char)
                        (slice_to (respBuf c) readBytes) in
    let redirect :=
      if (0 <? FollowRedirects (config c))
         && (redirectsCount c <? FollowRedirects (config c)) then
        if len payload <? 12 then Some (c, Panics PanicError)
        else if bytes_eqb (slice payload 9 10) (B "3") then
          let c := set_redirectsCount c (redirectsCount c + 1) in
          let location := Header P payload (B "Location") in
          let redirectPayload := SetPath P data location in
          Some (Send c redirectPayload)
        else None
      else None in
    match redirect with
    | Some r => r
    | None =>
        let c := if bytes_eqb (Status P payload) (B "400") then Disconnect c else c in
        (set_redirectsCount c 0, Ret (payload, err st))
    end.

Definition send
    (Send : HTTPClient -> bytes -> HTTPClient * result (bytes * option NetErr))
    (c : HTTPClient) (k : Conn) (data : bytes) (readBytes : Z)
  : HTTPClient * result (bytes * option NetErr) :=
  match send_read c k data readBytes with
  | inr (response, e, c) => (c, Ret (response, e))
  | inl (Ret st) => send_finish Send data st
  | inl (Panics p) => (c, Panics p)
  | inl OutOfFuel => (c, OutOfFuel)
  end.

Definition proxyPath (c : HTTPClient) (path : bytes) : bytes :=
  (scheme c ++ B "://" ++ host c) ++ path.

(** The start of [Send]: [if c.conn == nil || !c.isAlive(&readBytes)]
    then [Connect]; the error of [Connect] and [readBytes]. *)
Definition connect_if_needed (c : HTTPClient) : HTTPClient * result (option NetErr * Z) :=
  let connect c readBytes : HTTPClient * result (option NetErr * Z) :=
    match Connect c with
    | (c, Ret e) => (c, Ret (e, readBytes))
    | (c, Panics p) => (c, Panics p)
    | (c, OutOfFuel) => (c, OutOfFuel)
    end in
  match conn c with
  | None => connect c 0
  | Some k =>
      match isAlive c k 0 with
      | Ret (true, c, readBytes) => (c, Ret (None, readBytes))
      | Ret (false, c, readBytes) => connect c readBytes
      | Panics p => (c, Panics p)
      | OutOfFuel => (c, OutOfFuel)
      end
  end.

(** The headers [Send] rewrites before it sends. *)
Definition rewrite_request (c : HTTPClient) (data : bytes) : bytes :=
  let data := if negb (OriginalHost (config c))
              then SetHost P data (baseURL c) (host c) else data in
  let data :=
    if isProxy c && bytes_eqb (scheme c) (B "http") then
      let path := Path P data in
      if (0 <? len path) && bytes_eqb (slice_to path 1) (B "/") then
        let data := SetPath P data (proxyPath c path) in
        if negb (bytes_eqb (proxyAuth c) [])
        then SetHeader P data (B "Proxy-Authorization") (proxyAuth c)
        else data
      else data
    else data in
  if negb (bytes_eqb (auth c) [])
  then SetHeader P data (B "Authorization") (auth c) else data.

(** The body of [Send], before its deferred function. *)
Definition Send_body
    (Send : HTTPClient -> bytes -> HTTPClient * result (bytes * option NetErr))
    (c : HTTPClient) (data : bytes) : HTTPClient * result (bytes * option NetErr) :=
  if CompatibilityMode (config c) then
    match goClient data with
    | inl response => (c, Ret (response, None))
    | inr e => (c, Ret ([], Some e))
    end
  else
    match connect_if_needed c with
    | (c, Panics p) => (c, Panics p)
    | (c, OutOfFuel) => (c, OutOfFuel)
    | (c, Ret (Some e, _)) => (c, Ret (errorPayload now HTTP_CONNECTION_ERROR, Some e))
    | (c, Ret (None, readBytes)) =>
        match conn c with
        | None => (c, Panics PanicError)
        | Some k =>
            send Send c (SetDeadline k WriteBy) (rewrite_request c data) readBytes
        end
    end.

(** The deferred function of [Send] recovers a panic: the call then
    returns its named results, which no statement has set when a panic
    can occur. *)
Definition recovered (r : HTTPClient * result (bytes * option NetErr))
  : HTTPClient * result (bytes * option NetErr) :=
  match r with
  | (c, Panics _) => (c, Ret ([], None))
  | r => r
  end.

(** The results [Send] can have: the empty result of a recovered panic,
    a synthetic response with one of three codes, or a reply that starts
    with [HTTP]. *)
Definition classified (r : result (bytes * option NetErr)) : Prop :=
  r = Ret ([], None)
  \/ (exists e, r = Ret (errorPayload now HTTP_CONNECTION_ERROR, Some e))
  \/ (exists e, r = Ret (errorPayload now HTTP_TIMEOUT, Some e))
  \/ (exists e, r = Ret (errorPayload now HTTP_UNKNOWN_ERROR, e))
  \/ (exists payload e, r = Ret (payload, e) /\ slice_to payload 4 = B "HTTP").

(** [Send]; [redirects] bounds the redirects still to be followed. *)
Fixpoint Send_n (redirects : nat) (c : HTTPClient) (data : bytes)
  : HTTPClient * result (bytes * option NetErr) :=
  match redirects with
  | O => recovered (Send_body (fun c _ => (c, OutOfFuel)) c data)
  | S r => recovered (Send_body (Send_n r) c data)
  end.

Definition Send (c : HTTPClient) (data : bytes)
  : HTTPClient * result (bytes * option NetErr) :=
  Send_n (Z.to_nat (FollowRedirects (config c) - redirectsCount c)) c data.

End Sending.

End Client.

(** ** Fan-out emitter ([CopyMulty]) *)

Module Emitter.

Inductive IOErr := EOF | ReadFailed | WriteFailed.

#[global] Instance IOErr_eq_dec : EqDecision IOErr.
Proof. solve_decision. Defined.

(** One call of [src.Read(buf)]: the count it returns, the bytes it
    copied into the buffer, its error, and the time of the pass. *)
Record read := { nr : Z; data : bytes; er : option IOErr; at_time : Z }.

(** The local variables of [CopyMulty] and what the writers received. *)
Record state := {
  buf : bytes;
  wIndex : Z;
  filteredRequests : gmap bytes Z;
  filteredRequestsLastCleanTime : Z;
  i : Z;
  written : list (nat * bytes)
}.

Definition set_buf (st : state) (b : bytes) : state :=
  {| buf := b; wIndex := wIndex st; filteredRequests := filteredRequests st;
     filteredRequestsLastCleanTime := filteredRequestsLastCleanTime st;
     i := i st; written := written st |}.

Definition set_filtered (st : state) (m : gmap bytes Z) : state :=
  {| buf := buf st; wIndex := wIndex st; filteredRequests := m;
     filteredRequestsLastCleanTime := filteredRequestsLastCleanTime st;
     i := i st; written := written st |}.

Definition set_wIndex (st : state) (w : Z) : state :=
  {| buf := buf st; wIndex := w; filteredRequests := filteredRequests st;
     filteredRequestsLastCleanTime := filteredRequestsLastCleanTime st;
     i := i st; written := written st |}.

Definition add_written (st : state) (w : list (nat * bytes)) : state :=
  {| buf := buf st; wIndex := wIndex st; filteredRequests := filteredRequests st;
     filteredRequestsLastCleanTime := filteredRequestsLastCleanTime st;
     i := i st; written := written st ++ w |}.

(** How a pass through the loop ends. *)
Inductive flow :=
| Continue (st : state)               (* continue *)
| Falls (st : state)                  (* the end of the body *)
| Return (e : option IOErr) (st : state)
| Panicked.

Inductive outcome :=
| Returned (e : option IOErr) (st : state)
| Reading (st : state)                (* the next Read has not come back *)
| Panic.

Definition second : Z := 1000000000.

(** The state a pass ends with, whichever way it ends. *)
Definition flow_state (f : flow) : option state :=
  match f with
  | Continue st | Falls st | Return _ st => Some st
  | Panicked => None
  end.

(** The buffer keeps its size and every payload written is shorter. *)
Definition bounded (L : Z) (st : state) : Prop :=
  len (buf st) = L /\ Forall (fun kp => len kp.2 < L) (written st).

Section Copy.

Variable payloadMeta : bytes -> list bytes.
Variable isRequestPayload : bytes -> bool.
Variable modifier : option (bytes -> bytes).   (* NewHTTPModifier: nil, or its Rewrite *)
Variable prettifyHTTP : bytes -> bytes.
Variable copyBufferSize : Z.                    (* Settings.copyBufferSize *)
Variable prettify : bool.                       (* Settings.prettifyHTTP *)
Variable splitOutput : bool.                    (* Settings.splitOutput *)
Variable writers : list (bytes -> option IOErr).

(** [for _, dst := range writers]: write to each, stop at the first
    error. *)
Fixpoint write_all (ws : list (bytes -> option IOErr)) (k : nat) (payload : bytes)
  : list (nat * bytes) * option IOErr :=
  match ws with
  | [] => ([], None)
  | w :: rest =>
      match w payload with
      | Some e => ([], Some e)
      | None => let '(l, e) := write_all rest (S k) payload in ((k, payload) :: l, e)
      end
  end.

(** The fan-out at the end of the body. *)
Definition fan_out (st : state) (payload : bytes) : flow :=
  if splitOutput then
    if (wIndex st <? 0) then Panicked
    else
      match writers !! Z.to_nat (wIndex st) with
      | None => Panicked
      | Some w =>
          match w payload with
          | Some e => Return (Some e) st
          | None =>
              let st := add_written st [(Z.to_nat (wIndex st), payload)] in
              let wIndex := wIndex st + 1 in
              Falls (set_wIndex st (if len writers <=? wIndex then 0 else wIndex))
          end
      end
  else
    match write_all writers 0 payload with
    | (l, Some e) => Return (Some e) (add_written st l)
    | (l, None) => Falls (add_written st l)
    end.

(** The body of the loop for a read of [nr] bytes, [0 < nr < len(buf)]. *)
Definition process (st : state) (r : read) : flow :=
  let payload := slice_to (buf st) (nr r) in
  let meta := payloadMeta payload in
  if len meta <? 3 then Continue st
  else
    let requestID := nth 1 meta [] in
    let modified : flow + bytes :=
      match modifier with
      | Some Rewrite =>
          if isRequestPayload payload then
            let headSize := strings.IndexByte payload "010"%char + 1 in
            let body := slice_from payload headSize in
            let originalBodyLen := len body in
            let body := Rewrite body in
            if len body =? 0 then
              inl (Continue (set_filtered st (<[requestID := at_time r]> (filteredRequests st))))
            else if negb (originalBodyLen =? len body)
                 then inr (slice_to payload headSize ++ body)
                 else inr payload
          else
            match filteredRequests st !! requestID with
            | Some _ => inl (Continue (set_filtered st (delete requestID (filteredRequests st))))
            | None => inr payload
            end
      | None => inr payload
      end in
    match modified with
    | inl f => f
    | inr payload =>
        let payload := if prettify then prettifyHTTP payload else payload in
        if prettify && (len payload =? 0) then Continue st
        else fan_out st payload
    end.

(** The sweep of [filteredRequests] at the end of the body. *)
Definition sweep (st : state) (now : Z) : state :=
  let st :=
    if (i st mod 1000 =? 0) && (60 * second <? now - filteredRequestsLastCleanTime st) then
      {| buf := buf st; wIndex := wIndex st;
         filteredRequests := filter (fun kv => negb (60 * second <? now - kv.2)) (filteredRequests st);
         filteredRequestsLastCleanTime := now; i := i st; written := written st |}
    else st in
  {| buf := buf st; wIndex := wIndex st; filteredRequests := filteredRequests st;
     filteredRequestsLastCleanTime := filteredRequestsLastCleanTime st;
     i := i st + 1; written := written st |}.

(** One pass: the read, then the body. *)
Definition pass (st : state) (r : read) : flow :=
  let st := set_buf st (copy (buf st) (data r)) in
  match er r with
  | Some EOF => Return None st
  | Some _ => Return None st          (* [return err], and [err] is still nil *)
  | None =>
      if (0 <? nr r) && (nr r <? len (buf st)) then
        match process st r with
        | Falls st => Falls (sweep st (at_time r))
        | f => f
        end
      else
        (* [else if nr > 0]: only a warning is logged *)
        Falls (sweep st (at_time r))
  end.

Fixpoint loop (st : state) (reads : list read) : outcome :=
  match reads with
  | [] => Reading st
  | r :: rest =>
      match pass st r with
      | Continue st | Falls st => loop st rest
      | Return e st => Returned e st
      | Panicked => Panic
      end
  end.

Definition CopyMulty (start : Z) (reads : list read) : outcome :=
  loop {| buf := replicate (Z.to_nat copyBufferSize) "000"%char; wIndex := 0;
          filteredRequests := ∅; filteredRequestsLastCleanTime := start;
          i := 0; written := [] |} reads.

Definition final (o : outcome) : option state :=
  match o with
  | Returned _ st | Reading st => Some st
  | Panic => None
  end.

End Copy.

End Emitter.

(** ** Sample payloads, in the envelope of the specification *)

Module Samples.

Definition request_a : bytes := B "1 0a1b 17 -1\nGET /a HTTP/1.1\r\n\r\n".

Definition response_a : bytes := B "2 0a1b 19 2\nHTTP/1.1 200 OK\r\n\r\n".

Definition request_b : bytes := B "1 0c2d 21 -1\nGET /b HTTP/1.1\r\n\r\n".

Definition replayed_a : bytes := B "3 0a1b 23 4\nHTTP/1.1 200 OK\r\n\r\n".

Definition separator : bytes := B "\n--SEP--\n".

(** A client as [NewHTTPClient] makes it for [http://example.com], with
    a response buffer of [size] bytes, and connections for it. *)
Definition client_config (size : Z) : Client.HTTPClientConfig :=
  {| Client.FollowRedirects := 0; Client.Debug := false; Client.OriginalHost := false;
     Client.ResponseBufferSize := size; Client.CompatibilityMode := false |}.

Definition client (size : Z) (px : option Client.URL) (dials : list (Client.Conn + Client.NetErr))
  : Client.HTTPClient :=
  {| Client.baseURL := B "http://example.com"; Client.scheme := B "http";
     Client.host := B "example.com"; Client.auth := [];
     Client.conn := None; Client.proxy := px; Client.proxyAuth := [];
     Client.respBuf := replicate (Z.to_nat size) "000"%char;
     Client.config := client_config size; Client.redirectsCount := 0;
     Client.dials := dials |}.

Definition origin (incoming : list Client.arrival) : Client.Conn :=
  {| Client.incoming := incoming; Client.at_end := Client.ErrTimeout;
     Client.write_results := []; Client.lines := []; Client.handshake := None;
     Client.tls := false; Client.written := []; Client.deadlines := [] |}.

Definition get_request : bytes := B "GET / HTTP/1.1\r\nHost: a\r\n\r\n".

Definition continue_head : bytes := B "HTTP/1.1 100 Continue\r\n\r\n".

Definition ok_response : bytes := B "HTTP/1.1 200 OK\r\nContent-Length: 2\r\n\r\nab".

Definition ok_head : bytes := B "HTTP/1.1 200 OK\r\nContent-Length: 2\r\n\r\n".

(** The two responses as they may come off the wire, cut at arbitrary
    places. *)
Definition continue_then_ok : list bytes :=
  [B "HTTP/1.1 100 Con"; B "tinue\r\n\r\nHTTP/1.1 200 OK\r\nCont"; B "ent-Length: 2\r\n\r\nab"].

Definition now : bytes := B "Sat, 31 Oct 2026 07:10:00 UTC".

Definition goClient (data : bytes) : bytes + Client.NetErr := inr Client.ErrOther.

Definition Send (c : Client.HTTPClient) (data : bytes) :=
  Client.Send ProtoSpec.ops now goClient c data.

Definition socks_proxy : Client.URL :=
  {| Client.Scheme := B "socks5"; Client.Host := B "127.0.0.1:1080"; Client.User := None |}.

(** An emitter with one writer that accepts everything, a modifier that
    sets a header, and a request that fits a copy buffer of 64 bytes. *)
Definition set_replayed_header (body : bytes) : bytes :=
  ProtoSpec.SetHeader body (B "X-Replayed") (B "1").

Definition host_request : bytes :=
  B "1 0a1b 17 -1\nGET /a HTTP/1.1\r\nHost: example.com\r\n\r\n".

Definition null_writer (payload : bytes) : option Emitter.IOErr := None.

Definition read_of (d : bytes) : Emitter.read :=
  {| Emitter.nr := len d; Emitter.data := d; Emitter.er := None; Emitter.at_time := 0 |}.

Definition CopyMulty (modifier : option (bytes -> bytes)) (size : Z) (reads : list Emitter.read) :=
  Emitter.CopyMulty Protocol.payloadMeta Protocol.isRequestPayload modifier
    (fun b => b) size false false [null_writer] 0 reads.

(** A sink that is not sticky, after two writes and with its first worker
    holding the first payload, the second still queued. *)
Definition sink_events : list OutputTCP.event :=
  [OutputTCP.EvWrite request_a; OutputTCP.EvWrite request_b;
   OutputTCP.EvWorker 0 true true; OutputTCP.EvWorker 0 true true].

Definition run_sink (o : OutputTCP.TCPOutput) (es : list OutputTCP.event) :=
  OutputTCP.run Protocol.payloadMeta Protocol.isOriginPayload separator false o es.

Definition sink_sending : OutputTCP.TCPOutput :=
  default (OutputTCP.NewTCPOutput false) (run_sink (OutputTCP.NewTCPOutput false) sink_events).

End Samples.

(** * Properties *)

Example getFileIndex_logs : FileOutput.getFileIndex (B "/tmp/logs") = -1.
Proof. reflexivity. Qed.

Example getFileIndex_logs_2_gz : FileOutput.getFileIndex (B "/tmp/logs_2.gz") = 2.
Proof. reflexivity. Qed.

Example setFileIndex_underscores :
  FileOutput.setFileIndex (B "/tmp/logs_underscores.gz") 10 = B "/tmp/logs_underscores_10.gz".
Proof. reflexivity. Qed.

Example setFileIndex_replace :
  FileOutput.setFileIndex (B "/tmp/logs_0.gz") 10 = B "/tmp/logs_10.gz".
Proof. reflexivity. Qed.

(** ** Standard-library facts *)

Section GoFacts.

Lemma forallb_rev {A} (f : A -> bool) (l : list A) :
  forallb f (rev l) = forallb f l.
Proof.
  induction l as [|x l IH]; simpl; [done|].
  rewrite forallb_app, IH. simpl. rewrite andb_true_r. apply andb_comm.
Qed.

Lemma ext_scan_plain u r seen :
  forallb filepath.plain u = true ->
  filepath.ext_scan (u ++ r) seen = filepath.ext_scan r (rev u ++ seen).
Proof.
  revert seen. induction u as [|c u IH]; intros seen Hu; simpl in *; [done|].
  apply andb_prop in Hu as [Hc Hu]. unfold filepath.plain in Hc.
  apply andb_prop in Hc as [Hd Hs].
  apply negb_true_iff in Hd, Hs. rewrite Hs, Hd.
  rewrite IH by done. by rewrite <- app_assoc.
Qed.

Lemma ext_scan_seen r seen :
  filepath.ext_scan r seen =
  match filepath.ext_scan r [] with [] => [] | e => e ++ seen end.
Proof.
  revert seen. induction r as [|c r IH]; intros seen; simpl; [done|].
  destruct (Ascii.eqb c filepath.Separator); [done|].
  destruct (Ascii.eqb c "."%char); [done|].
  rewrite (IH (c :: seen)), (IH [c]).
  destruct (filepath.ext_scan r []) as [|x e]; [done|].
  simpl. by rewrite <- app_assoc.
Qed.

Lemma ext_scan_shape r seen :
  filepath.ext_scan r seen = [] \/
  exists e, filepath.ext_scan r seen = "."%char :: e ++ seen /\ forallb filepath.plain e = true.
Proof.
  revert seen. induction r as [|c r IH]; intros seen; simpl; [by left|].
  destruct (Ascii.eqb c filepath.Separator) eqn:Hs; [by left|].
  destruct (Ascii.eqb c "."%char) eqn:Hd.
  - right. exists []. apply Ascii.eqb_eq in Hd. by subst.
  - destruct (IH (c :: seen)) as [H|(e & H & He)]; [by left|].
    right. exists (e ++ [c]). rewrite H, <- app_assoc. split; [done|].
    rewrite forallb_app, He. simpl. unfold filepath.plain. by rewrite Hd, Hs.
Qed.

Lemma ext_scan_suffix r seen :
  exists w, rev r ++ seen = w ++ filepath.ext_scan r seen.
Proof.
  revert seen. induction r as [|c r IH]; intros seen; simpl.
  - exists seen. by rewrite app_nil_r.
  - destruct (Ascii.eqb c filepath.Separator).
    { exists (rev r ++ [c] ++ seen). by rewrite app_nil_r, <- app_assoc. }
    destruct (Ascii.eqb c "."%char).
    { exists (rev r). by rewrite <- app_assoc. }
    destruct (IH (c :: seen)) as [w Hw]. exists w. by rewrite <- app_assoc.
Qed.

Lemma Ext_suffix path : exists w, path = w ++ filepath.Ext path.
Proof.
  destruct (ext_scan_suffix (rev path) []) as [w Hw].
  exists w. by rewrite rev_involutive, app_nil_r in Hw.
Qed.

Lemma Ext_shape path :
  filepath.Ext path = [] \/
  exists e, filepath.Ext path = "."%char :: e /\ forallb filepath.plain e = true.
Proof.
  destruct (ext_scan_shape (rev path) []) as [H|(e & H & He)]; [by left|].
  right. exists e. by rewrite app_nil_r in H.
Qed.

Lemma Ext_app_plain w t :
  forallb filepath.plain t = true ->
  filepath.Ext (w ++ t) =
  match filepath.Ext w with [] => [] | e => e ++ t end.
Proof.
  intros Ht. unfold filepath.Ext. rewrite rev_app_distr.
  rewrite ext_scan_plain by (by rewrite forallb_rev).
  rewrite rev_involutive, app_nil_r. apply ext_scan_seen.
Qed.

Lemma Ext_app_dot w e :
  forallb filepath.plain e = true ->
  filepath.Ext (w ++ "."%char :: e) = "."%char :: e.
Proof.
  intros He. unfold filepath.Ext. rewrite rev_app_distr. simpl.
  rewrite <- app_assoc.
  rewrite ext_scan_plain by (by rewrite forallb_rev).
  by rewrite rev_involutive, app_nil_r.
Qed.

Lemma TrimSuffix_app w e : strings.TrimSuffix (w ++ e) e = w.
Proof.
  unfold strings.TrimSuffix, strings.HasSuffix, bytes_eqb.
  rewrite length_app.
  replace (length w + length e - length e)%nat with (length w) by lia.
  rewrite drop_app_length, take_app_length.
  rewrite bool_decide_eq_true_2 by done.
  destruct (length e <=? length w + length e)%nat eqn:H; [done|].
  apply Nat.leb_gt in H. lia.
Qed.

Lemma TrimSuffix_nil s : strings.TrimSuffix s [] = s.
Proof. rewrite <- (app_nil_r s) at 1. apply TrimSuffix_app. Qed.

Lemma LastIndexByte_range s c : -1 <= strings.LastIndexByte s c < len s.
Proof.
  unfold len. induction s as [|x s IH]; simpl; [lia|].
  destruct (strings.LastIndexByte s c =? -1) eqn:E.
  - destruct (Ascii.eqb x c); lia.
  - apply Z.eqb_neq in E. lia.
Qed.

Lemma LastIndexByte_none s c :
  forallb (fun x => negb (Ascii.eqb x c)) s = true ->
  strings.LastIndexByte s c = -1.
Proof.
  induction s as [|x s IH]; simpl; [done|].
  intros [Hx Hs]%andb_prop. rewrite IH by done. simpl.
  apply negb_true_iff in Hx. by rewrite Hx.
Qed.

Lemma LastIndexByte_app w t c :
  forallb (fun x => negb (Ascii.eqb x c)) t = true ->
  strings.LastIndexByte (w ++ c :: t) c = len w.
Proof.
  intros Ht. unfold len. induction w as [|x w IH]; simpl.
  - rewrite LastIndexByte_none by done. simpl. by rewrite Ascii.eqb_refl.
  - rewrite IH.
    destruct (Z.of_nat (length w) =? -1) eqn:E; [apply Z.eqb_eq in E|]; lia.
Qed.

Lemma LastIndexByte_split s c :
  strings.LastIndexByte s c <> -1 ->
  s = slice_to s (strings.LastIndexByte s c)
      ++ c :: slice_from s (strings.LastIndexByte s c + 1).
Proof.
  unfold slice_to, slice_from.
  induction s as [|x s IH]; simpl; [done|].
  pose proof (LastIndexByte_range s c) as Hr.
  destruct (strings.LastIndexByte s c =? -1) eqn:E.
  - destruct (Ascii.eqb x c) eqn:Hx; [|done].
    intros _. apply Ascii.eqb_eq in Hx. subst x. simpl.
    apply Z.eqb_eq in E. rewrite E in IH. done.
  - apply Z.eqb_neq in E. intros _.
    replace (Z.to_nat (strings.LastIndexByte s c + 1))
      with (S (Z.to_nat (strings.LastIndexByte s c))) by lia.
    replace (Z.to_nat (strings.LastIndexByte s c + 1 + 1))
      with (S (Z.to_nat (strings.LastIndexByte s c + 1))) by lia.
    simpl. f_equal. by apply IH.
Qed.

(** *** Decimal printing and parsing *)

Lemma byte_val_digit_char d :
  0 <= d <= 9 -> byte_val (strconv.digit_char d) = 48 + d.
Proof.
  intros Hd. unfold byte_val, strconv.digit_char.
  rewrite N_ascii_embedding by lia. lia.
Qed.

Lemma fmt_digits_acc fuel n acc :
  strconv.fmt_digits fuel n acc = strconv.fmt_digits fuel n [] ++ acc.
Proof.
  revert n acc. induction fuel as [|f IH]; intros n acc; simpl; [done|].
  destruct (n <? 10); [done|].
  rewrite (IH _ (_ :: acc)), (IH _ [_]). by rewrite <- app_assoc.
Qed.

Lemma dec_value_app s t n :
  strconv.dec_value (s ++ t) n = strconv.dec_value t (strconv.dec_value s n).
Proof. revert n. induction s as [|c s IH]; intros n; simpl; [done|apply IH]. Qed.

Lemma fmt_digits_value fuel n :
  0 <= n < 10 ^ Z.of_nat fuel ->
  strconv.dec_value (strconv.fmt_digits fuel n []) 0 = n.
Proof.
  revert n. induction fuel as [|f IH]; intros n Hn.
  - simpl in Hn. simpl. lia.
  - simpl strconv.fmt_digits.
    assert (Hmod : 0 <= n mod 10 <= 9) by (pose proof (Z.mod_pos_bound n 10); lia).
    destruct (n <? 10) eqn:E.
    + apply Z.ltb_lt in E. simpl. rewrite byte_val_digit_char by done.
      rewrite Z.mod_small by lia. lia.
    + apply Z.ltb_ge in E. rewrite fmt_digits_acc, dec_value_app.
      rewrite IH.
      * simpl. rewrite byte_val_digit_char by done.
        pose proof (Z.div_mod n 10). lia.
      * split; [apply Z.div_pos; lia|].
        apply Z.div_lt_upper_bound; [lia|].
        rewrite Nat2Z.inj_succ, Z.pow_succ_r in Hn; lia.
Qed.

Lemma fmt_digits_digits fuel n acc :
  forallb strconv.is_digit acc = true ->
  forallb strconv.is_digit (strconv.fmt_digits fuel n acc) = true.
Proof.
  revert n acc. induction fuel as [|f IH]; intros n acc Hacc; simpl; [done|].
  assert (Hd : strconv.is_digit (strconv.digit_char (n mod 10)) = true).
  { unfold strconv.is_digit. pose proof (Z.mod_pos_bound n 10).
    rewrite byte_val_digit_char by lia.
    apply andb_true_intro; split; apply Z.leb_le; lia. }
  destruct (n <? 10); [simpl; by rewrite Hd|].
  apply IH. simpl. by rewrite Hd.
Qed.

Lemma fmt_digits_cons f n :
  exists c r, strconv.fmt_digits (S f) n [] = c :: r /\ strconv.is_digit c = true.
Proof.
  pose proof (fmt_digits_digits (S f) n [] eq_refl) as H.
  destruct (strconv.fmt_digits (S f) n []) as [|c r] eqn:E.
  - simpl in E. destruct (n <? 10); [done|].
    rewrite fmt_digits_acc in E. by destruct (strconv.fmt_digits f (n / 10) []).
  - exists c, r. simpl in H. by apply andb_prop in H as [-> _].
Qed.

Lemma is_digit_not_sign c :
  strconv.is_digit c = true ->
  Ascii.eqb c "-"%char = false /\ Ascii.eqb c "+"%char = false.
Proof.
  intros H. split; apply Ascii.eqb_neq; intros ->; by vm_compute in H.
Qed.

Lemma Atoi_Itoa n : in_int64 n -> strconv.Atoi (strconv.Itoa n) = (n, None).
Proof.
  unfold in_int64, MinInt64, MaxInt64. intros Hn. unfold strconv.Itoa.
  destruct (n <? 0) eqn:E.
  - apply Z.ltb_lt in E.
    destruct (fmt_digits_cons 19 (- n)) as (c & r & Hcr & Hc).
    pose proof (fmt_digits_digits 20 (- n) [] eq_refl) as Hd.
    pose proof (fmt_digits_value 20 (- n)) as Hv.
    unfold strconv.Atoi. simpl Ascii.eqb. cbv iota beta.
    rewrite Hcr in *. rewrite Hd, Hv by lia.
    unfold MinInt64, MaxInt64. simpl negb. simpl andb.
    destruct (- - 2 ^ 63 <? - n) eqn:E2; [apply Z.ltb_lt in E2; lia|].
    f_equal. lia.
  - apply Z.ltb_ge in E.
    destruct (fmt_digits_cons 19 n) as (c & r & Hcr & Hc).
    pose proof (fmt_digits_digits 20 n [] eq_refl) as Hd.
    pose proof (fmt_digits_value 20 n) as Hv.
    unfold strconv.Atoi. rewrite Hcr in *.
    destruct (is_digit_not_sign c Hc) as [-> ->].
    rewrite Hd, Hv by lia. unfold MaxInt64. simpl negb. simpl andb.
    destruct (2 ^ 63 - 1 <? n) eqn:E2; [apply Z.ltb_lt in E2; lia|done].
Qed.

Lemma numeric_plain c :
  strconv.numeric c = true ->
  filepath.plain c = true /\ negb (Ascii.eqb c "_"%char) = true.
Proof.
  unfold strconv.numeric, strconv.is_digit, filepath.plain. intros H.
  split.
  - apply andb_true_intro; split; apply negb_true_iff, Ascii.eqb_neq;
      intros ->; by vm_compute in H.
  - apply negb_true_iff, Ascii.eqb_neq. intros ->. by vm_compute in H.
Qed.

Lemma numeric_all_plain s :
  forallb strconv.numeric s = true ->
  forallb filepath.plain s = true
  /\ forallb (fun x => negb (Ascii.eqb x "_"%char)) s = true.
Proof.
  induction s as [|c s IH]; simpl; [done|].
  intros [Hc Hs]%andb_prop. destruct (numeric_plain c Hc) as [-> ->].
  by apply IH.
Qed.

Lemma digits_numeric s :
  forallb strconv.is_digit s = true -> forallb strconv.numeric s = true.
Proof.
  induction s as [|c s IH]; simpl; [done|].
  intros [Hc Hs]%andb_prop. unfold strconv.numeric at 1. rewrite Hc, IH; done.
Qed.

Lemma Itoa_numeric n : forallb strconv.numeric (strconv.Itoa n) = true.
Proof.
  unfold strconv.Itoa. destruct (n <? 0); [cbn [forallb]; apply andb_true_intro; split; [done|]|];
    apply digits_numeric; by apply fmt_digits_digits.
Qed.

Lemma Atoi_ok_numeric s v :
  strconv.Atoi s = (v, None) -> forallb strconv.numeric s = true.
Proof.
  unfold strconv.Atoi. destruct s as [|c r]; [done|].
  destruct (Ascii.eqb c "-"%char) eqn:Em;
    [|destruct (Ascii.eqb c "+"%char) eqn:Ep].
  - destruct r as [|d r]; [done|].
    destruct (forallb strconv.is_digit (d :: r)) eqn:Hd; [|done].
    intros _. change (strconv.numeric c && forallb strconv.numeric (d :: r) = true).
    unfold strconv.numeric at 1.
    rewrite Em, orb_true_r. by apply (digits_numeric (d :: r)).
  - destruct r as [|d r]; [done|].
    destruct (forallb strconv.is_digit (d :: r)) eqn:Hd; [|done].
    intros _. change (strconv.numeric c && forallb strconv.numeric (d :: r) = true).
    unfold strconv.numeric at 1.
    rewrite Ep, orb_true_r. by apply (digits_numeric (d :: r)).
  - destruct (forallb strconv.is_digit (c :: r)) eqn:Hd; [|done].
    intros _. by apply digits_numeric.
Qed.

End GoFacts.

(** ** File sink: the indexed rename *)

Section FileIndex.

Import FileOutput.

Lemma name_split p : p = strings.TrimSuffix p (filepath.Ext p) ++ filepath.Ext p.
Proof.
  destruct (Ext_suffix p) as [w Hw].
  rewrite Hw at 2. rewrite TrimSuffix_app. exact Hw.
Qed.

(** Either the name carries no index, or it is the stem followed by an
    underscore and an integer. *)
Lemma stem_cases p :
  strings.TrimSuffix p (filepath.Ext p) = stem p \/
  exists u v, strconv.Atoi u = (v, None) /\
    strings.TrimSuffix p (filepath.Ext p) = stem p ++ B "_" ++ u.
Proof.
  unfold stem. set (W := strings.TrimSuffix p (filepath.Ext p)).
  destruct (strings.LastIndexByte W "_"%char =? -1) eqn:E; simpl; [by left|].
  apply Z.eqb_neq in E.
  destruct (strconv.Atoi (slice_from W (strings.LastIndexByte W "_"%char + 1)))
    as [v [e|]] eqn:Ha; [by left|].
  right. exists (slice_from W (strings.LastIndexByte W "_"%char + 1)), v.
  split; [done|]. by apply LastIndexByte_split.
Qed.

Lemma setFileIndex_eq p n :
  setFileIndex p n = stem p ++ B "_" ++ strconv.Itoa n ++ filepath.Ext p.
Proof. reflexivity. Qed.

Lemma Ext_stem p : filepath.Ext p = [] -> filepath.Ext (stem p) = [].
Proof.
  intros He. pose proof (name_split p) as Hp. rewrite He, app_nil_r in Hp.
  destruct (stem_cases p) as [H|(u & v & Hu & H)]; rewrite He in H.
  - by rewrite <- H, <- Hp.
  - rewrite <- Hp in H.
    apply Atoi_ok_numeric, numeric_all_plain in Hu as [Hu _].
    assert (Hpl : forallb filepath.plain (B "_" ++ u) = true) by (simpl; by rewrite Hu).
    pose proof (Ext_app_plain (stem p) _ Hpl) as HE.
    rewrite <- H, He in HE.
    destruct (filepath.Ext (stem p)); [done|discriminate].
Qed.

Lemma Ext_indexed p t :
  forallb filepath.plain t = true ->
  filepath.Ext (stem p ++ t ++ filepath.Ext p) = filepath.Ext p.
Proof.
  intros Ht. destruct (Ext_shape p) as [He|(e & He & Hpl)].
  - rewrite He, app_nil_r, Ext_app_plain by done. by rewrite Ext_stem.
  - rewrite He, app_assoc. by apply Ext_app_dot.
Qed.

Lemma indexed_parts p n :
  filepath.Ext (setFileIndex p n) = filepath.Ext p /\
  strings.TrimSuffix (setFileIndex p n) (filepath.Ext (setFileIndex p n))
    = stem p ++ B "_" ++ strconv.Itoa n /\
  strings.LastIndexByte (stem p ++ B "_" ++ strconv.Itoa n) "_"%char = len (stem p) /\
  slice_from (stem p ++ B "_" ++ strconv.Itoa n) (len (stem p) + 1) = strconv.Itoa n /\
  slice_to (stem p ++ B "_" ++ strconv.Itoa n) (len (stem p)) = stem p.
Proof.
  destruct (numeric_all_plain _ (Itoa_numeric n)) as [Hpl Hus].
  assert (HE : filepath.Ext (setFileIndex p n) = filepath.Ext p).
  { rewrite setFileIndex_eq, (app_assoc (B "_")). apply Ext_indexed.
    simpl. exact Hpl. }
  split; [exact HE|]. split.
  { rewrite HE, setFileIndex_eq, !app_assoc. apply TrimSuffix_app. }
  split; [by apply (LastIndexByte_app (stem p) (strconv.Itoa n))|].
  unfold slice_from, slice_to, len. split.
  - replace (Z.to_nat (Z.of_nat (length (stem p)) + 1)) with (length (stem p) + 1)%nat by lia.
    rewrite <- drop_drop, drop_app_length. done.
  - rewrite Nat2Z.id. apply take_app_length.
Qed.

(** C6.  For every path [p] and every natural number [n] that a Go [int]
    holds, reading the index back from [setFileIndex p n] gives [n];
    [setFileIndex] keeps the extension of [p] and its name without the
    index, writes [_n] right in front of the extension (at the end when
    there is none), and [p] itself is that name and extension with either
    nothing or an older index in between. *)
Theorem getFileIndex_setFileIndex (p : bytes) (n : Z) (Hn : 0 <= n <= MaxInt64) :
  getFileIndex (setFileIndex p n) = n
  /\ filepath.Ext (setFileIndex p n) = filepath.Ext p
  /\ stem (setFileIndex p n) = stem p
  /\ setFileIndex p n = stem p ++ B "_" ++ strconv.Itoa n ++ filepath.Ext p
  /\ (p = stem p ++ filepath.Ext p \/
      exists u v, strconv.Atoi u = (v, None) /\
                  p = stem p ++ B "_" ++ u ++ filepath.Ext p).
Proof.
  destruct (indexed_parts p n) as (HE & HT & HL & HF & HS).
  assert (HA : strconv.Atoi (strconv.Itoa n) = (n, None)).
  { apply Atoi_Itoa. unfold in_int64, MinInt64, MaxInt64 in *. lia. }
  assert (Hne : (len (stem p) =? -1) = false) by (apply Z.eqb_neq; unfold len; lia).
  repeat split.
  - unfold getFileIndex. rewrite HT, HL, Hne. simpl negb. cbv iota.
    by rewrite HF, HA.
  - exact HE.
  - unfold stem. rewrite HT, HL, Hne. simpl negb. cbv iota.
    by rewrite HF, HA, HS.
  - pose proof (name_split p) as Hp.
    destruct (stem_cases p) as [H|(u & v & Hu & H)]; rewrite H in Hp.
    + by left.
    + right. exists u, v. split; [done|]. by rewrite <- !app_assoc in Hp.
Qed.

Lemma getFileIndex_setFileIndex_witness :
  getFileIndex (setFileIndex (B "/tmp/logs_1.gz") 10) = 10
  /\ setFileIndex (B "/tmp/logs_1.gz") 10 = B "/tmp/logs_10.gz".
Proof.
  assert (H : 0 <= 10 <= MaxInt64) by (unfold MaxInt64; lia).
  destruct (getFileIndex_setFileIndex (B "/tmp/logs_1.gz") 10 H) as (H1 & _).
  split; [exact H1|reflexivity].
Defined.

End FileIndex.

(** ** Settings: the buffer-size parser *)

Section BufferParser.

Import Settings.

Example TestParseDataUnit :
  forallb (fun kv => bool_decide (bufferParser kv.1 (B "0") = (kv.2, None))) parse_table = true.
Proof. vm_compute. reflexivity. Qed.

(** The whitespace entry of the test table: ["\n\n 0.0\r\t\f"]. *)
Example TestParseDataUnit_blank :
  bufferParser (map (fun n => ascii_of_N n) [10; 10; 32; 48; 46; 48; 13; 9; 12]%N) (B "0")
  = (0, None).
Proof. vm_compute. reflexivity. Qed.

(** The four values of the specification do not depend on the
    replacement. *)
Lemma bufferParser_values (rpl : bytes) :
  bufferParser (B "42mb") rpl = (42 * 2 ^ 20, None)
  /\ bufferParser (B "0x12gB") rpl = (18 * 2 ^ 30, None)
  /\ bufferParser (B "1024") rpl = (1024, None)
  /\ bufferParser (B "0b111") rpl = (7, None).
Proof. repeat split; vm_compute; reflexivity. Qed.

(** A blank input with a replacement that carries no unit is parsed as
    the replacement. *)
Lemma bufferParser_blank_plain (size rpl : bytes) :
  empt size = true -> rB rpl = true ->
  bufferParser size rpl
  = (let '(buffer, err) := strconv.ParseInt0 rpl in (buffer, NumErr <$> err)).
Proof. intros He Hr. unfold bufferParser. by rewrite He, Hr. Qed.

(** A blank input shorter than two bytes with a replacement that carries
    a unit: [lmt] was taken from the input, not from the replacement, the
    slice panics and the recovered error is returned. *)
Lemma bufferParser_blank_unit (size rpl : bytes) :
  empt size = true -> len size < 2 -> rB rpl = false ->
  rKB rpl || rMB rpl || rGB rpl || rTB rpl = true ->
  bufferParser size rpl = (0, Some SliceBounds).
Proof.
  intros He Hl Hb Hu. unfold bufferParser. rewrite He, Hb.
  assert (Hp : forall u, parse_unit rpl (len size - 2) u = (0, Some SliceBounds)).
  { intros u. unfold parse_unit.
    destruct (len size - 2 <? 0) eqn:E; [done|]. apply Z.ltb_ge in E. lia. }
  rewrite !Hp.
  destruct (rKB rpl); [done|]. destruct (rMB rpl); [done|].
  destruct (rGB rpl); [done|]. destruct (rTB rpl); [done|]. done.
Qed.

(** C7.  The four values of the specification are returned without
    error, and a blank input with replacement ["0"] gives the parse of
    the replacement; but with the empty input and the replacement
    ["32mb"] of the function's own comment the parser returns zero and
    the recovered slice error, where ["32mb"] itself parses to
    [32 * 2^20]. *)
Theorem bufferParser_empty_default :
  bufferParser (B "42mb") (B "0") = (42 * 2 ^ 20, None)
  /\ bufferParser (B "0x12gB") (B "0") = (18 * 2 ^ 30, None)
  /\ bufferParser (B "1024") (B "0") = (1024, None)
  /\ bufferParser (B "0b111") (B "0") = (7, None)
  /\ bufferParser (B "") (B "0") = (0, None)
  /\ bufferParser (B "32mb") (B "0") = (32 * 2 ^ 20, None)
  /\ bufferParser (B "") (B "32mb") = (0, Some SliceBounds)
  /\ bufferParser (B "   ") (B "5mb") = (5 * 2 ^ 20, None)
  /\ bufferParser (B "    ") (B "5mb") = (0, Some (NumErr strconv.ErrSyntax)).
Proof. repeat split; vm_compute; reflexivity. Qed.

End BufferParser.

(** ** FNV-1a *)

Example fnv32a_empty : fnv.sum32a (B "") = 0x811c9dc5.
Proof. reflexivity. Qed.

Example fnv32a_a : fnv.sum32a (B "a") = 0xe40c292c.
Proof. reflexivity. Qed.

Example fnv32a_foobar : fnv.sum32a (B "foobar") = 0xbf9cf968.
Proof. reflexivity. Qed.

Example payloadMeta_request :
  Protocol.payloadMeta (B "1 abc 123 -1\nGET / HTTP/1.1\r\n\r\n")
  = [B "1"; B "abc"; B "123"; B "-1"].
Proof. reflexivity. Qed.

(** ** TCP sink *)

Section TCPSink.

Import OutputTCP.

Variable payloadMeta : bytes -> list bytes.
Variable isOriginPayload : bytes -> bool.
Variable payloadSeparator : bytes.
Variable outputTCPStats : bool.

Local Abbreviation getBufferIndex := (getBufferIndex payloadMeta).
Local Abbreviation Write := (Write payloadMeta isOriginPayload outputTCPStats).
Local Abbreviation worker_step := (worker_step payloadSeparator).
Local Abbreviation step := (step payloadMeta isOriginPayload payloadSeparator outputTCPStats).
Local Abbreviation run := (run payloadMeta isOriginPayload payloadSeparator outputTCPStats).
Local Abbreviation only_origin := (only_origin isOriginPayload payloadSeparator).

Lemma copy_fresh {A} (d : list A) (x : A) : copy (replicate (length d) x) d = d.
Proof.
  unfold copy. rewrite length_replicate, firstn_all.
  rewrite drop_ge by (rewrite length_replicate; lia). apply app_nil_r.
Qed.

Lemma Write_returned o data n err o' :
  Write o data = Returned n err o' ->
  n = len data /\ err = None /\
  (isOriginPayload data = false /\ o' = o \/
   isOriginPayload data = true /\
   exists i q, getBufferIndex o data = Some i /\ buf o !! Z.to_nat i = Some q /\
     (length q < capacity o)%nat /\
     buf o' = <[Z.to_nat i := q ++ [data]]> (buf o) /\
     workers o' = workers o /\ wire o' = wire o /\
     sticky o' = sticky o /\ capacity o' = capacity o).
Proof.
  unfold OutputTCP.Write. rewrite copy_fresh.
  destruct (isOriginPayload data) eqn:Ho; simpl.
  2:{ intros [= <- <- <-]. auto. }
  destruct (getBufferIndex o data) as [i|] eqn:Hi; [|done].
  destruct (buf o !! Z.to_nat i) as [q|] eqn:Hq; [|done].
  destruct (length q <? capacity o)%nat eqn:Hc; [|done].
  apply Nat.ltb_lt in Hc.
  intros [= <- <- <-]. split; [done|]. split; [done|]. right. split; [done|].
  exists i, q. by destruct outputTCPStats.
Qed.

Lemma only_origin_new s : only_origin (NewTCPOutput s).
Proof.
  destruct s; (split; [|split]); simpl; try apply Forall_nil_2;
    repeat first [apply Forall_cons_2 | apply Forall_nil_2].
Qed.

Lemma only_origin_step o e o' :
  only_origin o -> step o e = Some o' -> only_origin o'.
Proof.
  intros (Hb & Hw & Hr). destruct e as [data|k io1 io2]; simpl.
  - destruct (Write o data) as [n err o1| |] eqn:HW; [|done..].
    intros [= <-]. apply Write_returned in HW as (_ & _ & [[_ ->]|(Ho & i & q & _ & Hq & _ & Hb' & Hw' & Hr' & _)]).
    { done. }
    split; [|split].
    + rewrite Hb'. apply Forall_insert; [done|].
      apply Forall_app. split; [|by apply Forall_singleton].
      by eapply Forall_lookup_1 in Hb.
    + by rewrite Hw'.
    + by rewrite Hr'.
  - unfold OutputTCP.worker_step.
    destruct (workers o !! k) as [w|] eqn:Hk; [|done].
    pose proof (Forall_lookup_1 _ _ _ _ Hw Hk) as Hh. unfold in_hand in Hh.
    destruct (at_pc w) as [r| |d|d| | |] eqn:Hpc.
    + intros [= <-]. split; [done|]. split; [|done]. simpl.
      apply Forall_insert; [done|]. unfold in_hand. simpl. destruct io1; done.
    + destruct (buf o !! bufferIndex w) as [[|d q]|] eqn:Hq; [done| |done].
      intros [= <-]. pose proof (Forall_lookup_1 _ _ _ _ Hb Hq) as Hdq.
      apply Forall_cons in Hdq as [Hd Hq'].
      split; [|split]; simpl; [by apply Forall_insert| |done].
      apply Forall_insert; [done|]. unfold in_hand. simpl. by apply Forall_singleton.
    + intros [= <-]. apply (proj1 (Forall_singleton _ _)) in Hh.
      split; [done|]. split; simpl.
      * apply Forall_insert; [done|]. unfold in_hand. simpl.
        destruct io2; [done|by apply Forall_singleton].
      * apply Forall_app. split; [done|]. apply Forall_app. split.
        -- destruct io1; [|done]. apply Forall_singleton. by right.
        -- destruct io2; [|done]. apply Forall_singleton. by left.
    + destruct (buf o !! bufferIndex w) as [q|] eqn:Hq; [|done].
      destruct (length q <? capacity o)%nat; [|done].
      intros [= <-]. apply (proj1 (Forall_singleton _ _)) in Hh.
      split; [|split]; simpl; [| |done].
      * apply Forall_insert; [done|]. apply Forall_app. split; [|by apply Forall_singleton].
        by eapply Forall_lookup_1 in Hb.
      * by apply Forall_insert.
    + intros [= <-]. split; [done|]. split; [|done]. simpl.
      apply Forall_app. split; [by apply Forall_insert|by apply Forall_singleton].
    + intros [= <-]. split; [done|]. split; [|done]. simpl. by apply Forall_insert.
    + done.
Qed.

Lemma only_origin_run es : forall o o',
  only_origin o -> run o es = Some o' -> only_origin o'.
Proof.
  induction es as [|e es IH]; intros o o' Ho; simpl.
  - by intros [= <-].
  - destruct (step o e) as [o1|] eqn:He; [|done].
    apply IH. by eapply only_origin_step.
Qed.

(** C9.  A payload that is not an origin payload makes [Write] return
    [(len(data), nil)] with the sink as it was, no channel touched; and
    in no run of the sink from its construction does such a payload
    appear among the bytes written to a connection (unless it is the
    separator itself, which the workers write after every payload). *)
Theorem Write_skips_other_kinds (o : TCPOutput) (data : bytes) :
  isOriginPayload data = false ->
  Write o data = Returned (len data) None o
  /\ forall s es o' k,
       run (NewTCPOutput s) es = Some o' -> (k, data) ∈ wire o' ->
       data = payloadSeparator.
Proof.
  intros Hd. split.
  - unfold OutputTCP.Write. by rewrite Hd.
  - intros s es o' k Hrun Hin.
    pose proof (only_origin_run es _ _ (only_origin_new s) Hrun) as (_ & _ & Hw).
    rewrite Forall_forall in Hw. specialize (Hw _ Hin). simpl in Hw.
    destruct Hw as [Hw|Hw]; [done|congruence].
Qed.

Lemma Write_enqueues o data uuid q :
  sticky o = true -> isOriginPayload data = true ->
  payloadMeta data !! 1%nat = Some uuid ->
  buf o !! Z.to_nat (fnv.sum32a uuid mod 10) = Some q ->
  (length q < capacity o)%nat ->
  exists o', Write o data = Returned (len data) None o'
    /\ buf o' = <[Z.to_nat (fnv.sum32a uuid mod 10) := q ++ [data]]> (buf o)
    /\ sticky o' = true /\ capacity o' = capacity o.
Proof.
  intros Hs Ho Hm Hq Hc. unfold OutputTCP.Write, OutputTCP.getBufferIndex.
  rewrite Ho, Hs, Hm, copy_fresh. simpl. rewrite Hq.
  apply Nat.ltb_lt in Hc. rewrite Hc.
  destruct outputTCPStats; eexists; (split; [reflexivity|]); simpl; auto.
Qed.

(** C5.  In sticky mode the buffer index of a payload is the FNV-1a hash
    of its UUID field modulo ten, so two payloads with the same UUID get
    the same index, and two calls of [Write] put both, in order, at the
    end of that one channel. *)
Theorem sticky_same_channel (o : TCPOutput) (d1 d2 uuid : bytes) (q : list bytes) :
  sticky o = true ->
  payloadMeta d1 !! 1%nat = Some uuid ->
  payloadMeta d2 !! 1%nat = Some uuid ->
  isOriginPayload d1 = true -> isOriginPayload d2 = true ->
  buf o !! Z.to_nat (fnv.sum32a uuid mod 10) = Some q ->
  (length q + 2 <= capacity o)%nat ->
  getBufferIndex o d1 = Some (fnv.sum32a uuid mod 10)
  /\ getBufferIndex o d2 = Some (fnv.sum32a uuid mod 10)
  /\ 0 <= fnv.sum32a uuid mod 10 < 10
  /\ exists o1 o2,
       Write o d1 = Returned (len d1) None o1
       /\ Write o1 d2 = Returned (len d2) None o2
       /\ buf o2 = <[Z.to_nat (fnv.sum32a uuid mod 10) := q ++ [d1; d2]]> (buf o).
Proof.
  intros Hs H1 H2 Ho1 Ho2 Hq Hc.
  split; [unfold OutputTCP.getBufferIndex; by rewrite Hs, H1|].
  split; [unfold OutputTCP.getBufferIndex; by rewrite Hs, H2|].
  split; [apply Z.mod_pos_bound; lia|].
  destruct (Write_enqueues o d1 uuid q) as (o1 & HW1 & Hb1 & Hs1 & Hc1); try done; [lia|].
  destruct (Write_enqueues o1 d2 uuid (q ++ [d1])) as (o2 & HW2 & Hb2 & _); try done.
  { rewrite Hb1. apply list_lookup_insert_eq. by eapply lookup_lt_Some. }
  { rewrite Hc1, length_app. simpl. lia. }
  exists o1, o2. split; [done|]. split; [done|].
  rewrite Hb2, Hb1, list_insert_insert_eq. by rewrite <- app_assoc.
Qed.

(** What a failed write leads to, move by move. *)
Lemma worker_failure_moves o k w data q io1 a1 a2 b1 b2 :
  workers o !! k = Some w -> at_pc w = Sending data ->
  buf o !! bufferIndex w = Some q -> (length q < capacity o)%nat ->
  exists o1 o2 o3,
    worker_step o k io1 false = Some o1
    /\ worker_step o1 k a1 a2 = Some o2
    /\ worker_step o2 k b1 b2 = Some o3
    /\ buf o1 = buf o
    /\ buf o2 = <[bufferIndex w := q ++ [data]]> (buf o)
    /\ workers o2 = <[k := {| bufferIndex := bufferIndex w; at_pc := Spawn |}]> (workers o)
    /\ buf o3 = buf o2
    /\ capacity o3 = capacity o
    /\ workers o3 = <[k := {| bufferIndex := bufferIndex w; at_pc := Break |}]> (workers o)
                    ++ [{| bufferIndex := bufferIndex w; at_pc := Dial 1 |}].
Proof.
  intros Hk Hpc Hq Hc.
  assert (Hlt : (k < length (workers o))%nat) by (by eapply lookup_lt_Some).
  apply Nat.ltb_lt in Hc.
  set (o1 := set_pc (set_wire o (wire o ++ (if io1 then [(k, data)] else []) ++ []))
                    k w (Requeue data)).
  set (o2 := set_pc (set_buf o1 (<[bufferIndex w := q ++ [data]]> (buf o1)))
                    k {| bufferIndex := bufferIndex w; at_pc := Requeue data |} Spawn).
  set (o3 := set_workers o2
               (<[k := {| bufferIndex := bufferIndex w; at_pc := Break |}]> (workers o2)
                ++ [{| bufferIndex := bufferIndex w; at_pc := Dial 1 |}])).
  assert (Hk1 : workers o1 !! k = Some {| bufferIndex := bufferIndex w; at_pc := Requeue data |}).
  { simpl. by apply list_lookup_insert_eq. }
  assert (Hk2 : workers o2 !! k = Some {| bufferIndex := bufferIndex w; at_pc := Spawn |}).
  { simpl. apply list_lookup_insert_eq. by rewrite length_insert. }
  exists o1, o2, o3. repeat split.
  - unfold OutputTCP.worker_step. by rewrite Hk, Hpc.
  - unfold OutputTCP.worker_step. rewrite Hk1. simpl. by rewrite Hq, Hc.
  - unfold OutputTCP.worker_step. by rewrite Hk2.
  - simpl. by rewrite list_insert_insert_eq.
  - simpl. by rewrite !list_insert_insert_eq.
Qed.

(** C4 (as the code has it).  When the write of the separator fails, the
    worker sends the payload it holds to its channel again, and a channel
    send appends: with [q] queued and room left, the channel becomes
    [q ++ [data]].  The worker then starts a replacement for the same
    channel and only after that breaks out of its loop.  The next receive
    from the channel therefore yields the oldest queued payload, which is
    the one sent again only when nothing else was queued. *)
Theorem worker_write_failure (o : TCPOutput) (k : nat) (w : worker)
    (data : bytes) (q : list bytes) (io1 a1 a2 b1 b2 : bool) :
  workers o !! k = Some w -> at_pc w = Sending data ->
  buf o !! bufferIndex w = Some q -> (length q < capacity o)%nat ->
  exists o1 o2 o3,
    worker_step o k io1 false = Some o1
    /\ worker_step o1 k a1 a2 = Some o2
    /\ worker_step o2 k b1 b2 = Some o3
    /\ buf o3 !! bufferIndex w = Some (q ++ [data])
    /\ workers o3 !! k = Some {| bufferIndex := bufferIndex w; at_pc := Break |}
    /\ workers o3 !! length (workers o)
       = Some {| bufferIndex := bufferIndex w; at_pc := Dial 1 |}
    /\ forall j wj c1 c2,
         workers o3 !! j = Some wj -> at_pc wj = Recv ->
         bufferIndex wj = bufferIndex w ->
         exists o4, worker_step o3 j c1 c2 = Some o4
           /\ workers o4 !! j
              = Some {| bufferIndex := bufferIndex w; at_pc := Sending (hd data q) |}
           /\ buf o4 !! bufferIndex w = Some (tl (q ++ [data])).
Proof.
  intros Hk Hpc Hq Hc.
  assert (Hlt : (k < length (workers o))%nat) by (by eapply lookup_lt_Some).
  assert (Hi : (bufferIndex w < length (buf o))%nat) by (by eapply lookup_lt_Some).
  destruct (worker_failure_moves o k w data q io1 a1 a2 b1 b2 Hk Hpc Hq Hc)
    as (o1 & o2 & o3 & H1 & H2 & H3 & Hb1 & Hb2 & Hw2 & Hb3 & Hc3 & Hw3).
  exists o1, o2, o3. split; [done|]. split; [done|]. split; [done|].
  assert (Hq3 : buf o3 !! bufferIndex w = Some (q ++ [data])).
  { rewrite Hb3, Hb2. by apply list_lookup_insert_eq. }
  split; [done|]. split.
  { rewrite Hw3, lookup_app_l by (by rewrite length_insert).
    by apply list_lookup_insert_eq. }
  split.
  { rewrite Hw3, lookup_app_r by (by rewrite length_insert).
    by rewrite length_insert, Nat.sub_diag. }
  intros j wj c1 c2 Hj Hpcj Hij.
  unfold OutputTCP.worker_step. rewrite Hj, Hpcj, Hij, Hq3.
  assert (Hj' : (j < length (workers o3))%nat) by (by eapply lookup_lt_Some).
  assert (Hi3 : (bufferIndex w < length (buf o3))%nat) by (by eapply lookup_lt_Some).
  destruct q as [|x q']; simpl; eexists; (split; [reflexivity|]); simpl;
    rewrite !list_lookup_insert_eq by done; by rewrite Hij.
Qed.

End TCPSink.

(** C9 at a replayed response, kind 3, with the envelope of the
    specification. *)
Lemma Write_skips_other_kinds_witness :
  OutputTCP.Write Protocol.payloadMeta Protocol.isOriginPayload false
    (OutputTCP.NewTCPOutput true) Samples.replayed_a
  = OutputTCP.Returned (len Samples.replayed_a) None (OutputTCP.NewTCPOutput true).
Proof.
  apply (Write_skips_other_kinds Protocol.payloadMeta Protocol.isOriginPayload
           Samples.separator false (OutputTCP.NewTCPOutput true) Samples.replayed_a).
  vm_compute. reflexivity.
Defined.

Lemma sticky_same_channel_witness :
  OutputTCP.getBufferIndex Protocol.payloadMeta (OutputTCP.NewTCPOutput true) Samples.request_a
  = OutputTCP.getBufferIndex Protocol.payloadMeta (OutputTCP.NewTCPOutput true) Samples.response_a
  /\ exists o1 o2,
       OutputTCP.Write Protocol.payloadMeta Protocol.isOriginPayload false
         (OutputTCP.NewTCPOutput true) Samples.request_a
       = OutputTCP.Returned (len Samples.request_a) None o1
       /\ OutputTCP.Write Protocol.payloadMeta Protocol.isOriginPayload false
            o1 Samples.response_a
          = OutputTCP.Returned (len Samples.response_a) None o2
       /\ OutputTCP.buf o2
          = <[Z.to_nat (fnv.sum32a (B "0a1b") mod 10) := [Samples.request_a; Samples.response_a]]>
              (replicate 10 []).
Proof.
  destruct (sticky_same_channel Protocol.payloadMeta Protocol.isOriginPayload false
              (OutputTCP.NewTCPOutput true) Samples.request_a Samples.response_a
              (B "0a1b") [])
    as (H1 & H2 & _ & H3).
  - reflexivity.
  - vm_compute. reflexivity.
  - vm_compute. reflexivity.
  - vm_compute. reflexivity.
  - vm_compute. reflexivity.
  - vm_compute. reflexivity.
  - simpl. lia.
  - split; [by rewrite H1, H2|exact H3].
Defined.

Lemma worker_write_failure_witness :
  exists o1 o2 o3,
    OutputTCP.worker_step Samples.separator Samples.sink_sending 0 true false = Some o1
    /\ OutputTCP.worker_step Samples.separator o1 0 true true = Some o2
    /\ OutputTCP.worker_step Samples.separator o2 0 true true = Some o3
    /\ OutputTCP.buf o3 !! 0%nat = Some [Samples.request_b; Samples.request_a].
Proof.
  destruct (worker_write_failure Samples.separator Samples.sink_sending 0
              {| OutputTCP.bufferIndex := 0; OutputTCP.at_pc := OutputTCP.Sending Samples.request_a |}
              Samples.request_a [Samples.request_b] true true true true true)
    as (o1 & o2 & o3 & H1 & H2 & H3 & H4 & _).
  - vm_compute. reflexivity.
  - reflexivity.
  - vm_compute. reflexivity.
  - vm_compute. lia.
  - exists o1, o2, o3. auto.
Defined.

(** C4 as stated fails: with [request_b] queued behind it, the payload
    [request_a] whose write failed goes back to the end of the channel,
    and the next receive (by the replacement worker, number 10) yields
    [request_b]. *)
Lemma worker_requeue_not_head :
  exists o' o'',
    Samples.run_sink (OutputTCP.NewTCPOutput false)
      (Samples.sink_events
       ++ [OutputTCP.EvWorker 0 true false; OutputTCP.EvWorker 0 true true;
           OutputTCP.EvWorker 0 true true; OutputTCP.EvWorker 0 true true]) = Some o'
    /\ OutputTCP.buf o' = [[Samples.request_b; Samples.request_a]]
    /\ Samples.run_sink o' [OutputTCP.EvWorker 10 true true; OutputTCP.EvWorker 10 true true]
       = Some o''
    /\ OutputTCP.workers o'' !! 10%nat
       = Some {| OutputTCP.bufferIndex := 0;
                 OutputTCP.at_pc := OutputTCP.Sending Samples.request_b |}
    /\ Samples.request_b <> Samples.request_a.
Proof.
  eexists. eexists.
  split; [vm_compute; reflexivity|].
  split; [reflexivity|].
  split; [vm_compute; reflexivity|].
  split; [reflexivity|].
  intros H. discriminate H.
Qed.

(** ** The helpers of [proto] as modelled *)

Example ProtoSpec_Status :
  ProtoSpec.Status (B "HTTP/1.1 200 OK\r\nContent-Length: 2\r\n\r\nab") = B "200".
Proof. reflexivity. Qed.

Example ProtoSpec_Header :
  ProtoSpec.Header (B "HTTP/1.1 200 OK\r\ncontent-length:  2\r\n\r\nab") (B "Content-Length")
  = B "2".
Proof. reflexivity. Qed.

Example ProtoSpec_Body :
  ProtoSpec.Body (B "HTTP/1.1 200 OK\r\nContent-Length: 2\r\n\r\nab") = B "ab".
Proof. reflexivity. Qed.

Example ProtoSpec_SetHeader :
  ProtoSpec.SetHeader (B "GET / HTTP/1.1\r\nHost: a\r\n\r\n") (B "Host") (B "b")
  = B "GET / HTTP/1.1\r\nHost: b\r\n\r\n"
  /\ ProtoSpec.SetHeader (B "GET / HTTP/1.1\r\n\r\n") (B "X") (B "1")
     = B "GET / HTTP/1.1\r\nX: 1\r\n\r\n".
Proof. split; reflexivity. Qed.

Example ProtoSpec_SetPath :
  ProtoSpec.SetPath (B "GET / HTTP/1.1\r\nHost: a\r\n\r\n") (B "/x")
  = B "GET /x HTTP/1.1\r\nHost: a\r\n\r\n".
Proof. reflexivity. Qed.

(** ** Replay client: the synthetic response *)

Section ErrorPayload.

Import Client.

Lemma length_copy {A} (dst src : list A) : length (copy dst src) = length dst.
Proof. unfold copy. rewrite length_app, length_take, length_drop. lia. Qed.

Lemma copy_exact {A} (dst src : list A) : length src = length dst -> copy dst src = src.
Proof.
  intros H. unfold copy. rewrite <- H, firstn_all, H.
  rewrite drop_ge by lia. apply app_nil_r.
Qed.

Lemma length_slice_to {A} (s : list A) (j : Z) :
  0 <= j <= len s -> length (slice_to s j) = Z.to_nat j.
Proof. unfold slice_to, len. intros H. rewrite length_take. lia. Qed.

Lemma length_slice_from {A} (s : list A) (i : Z) :
  0 <= i <= len s -> length (slice_from s i) = (length s - Z.to_nat i)%nat.
Proof. unfold slice_from. intros _. apply length_drop. Qed.

Lemma length_slice {A} (s : list A) (i j : Z) :
  0 <= i <= j -> j <= len s -> length (slice s i j) = Z.to_nat (j - i).
Proof.
  unfold slice, slice_to, slice_from, len. intros H1 H2.
  rewrite length_take, length_drop. lia.
Qed.

Lemma length_copy_at {A} (dst src : list A) (i j : Z) :
  0 <= i <= j -> j <= len dst -> length (copy_at dst i j src) = length dst.
Proof.
  intros H1 H2. unfold copy_at.
  rewrite !length_app, length_copy, length_slice, length_slice_to, length_slice_from by lia.
  unfold len in *. lia.
Qed.

Lemma slice_copy_at {A} (dst src : list A) (i j : Z) :
  0 <= i <= j -> j <= len dst -> len src = j - i ->
  slice (copy_at dst i j src) i j = src.
Proof.
  intros H1 H2 H3. unfold copy_at.
  rewrite copy_exact by (rewrite length_slice by lia; unfold len in H3; lia).
  unfold slice, slice_to, slice_from.
  rewrite drop_app_length' by (rewrite length_take; unfold len in H2; lia).
  apply take_app_length'. unfold len in H3. lia.
Qed.

Lemma slice_to_copy_at {A} (dst src : list A) (i j : Z) :
  0 <= i <= j -> j <= len dst ->
  slice_to (copy_at dst i j src) i = slice_to dst i.
Proof.
  intros H1 H2. unfold copy_at, slice_to at 1.
  apply take_app_length'. rewrite length_slice_to by lia. done.
Qed.

Lemma slice_from_copy_at {A} (dst src : list A) (i j : Z) :
  0 <= i <= j -> j <= len dst ->
  slice_from (copy_at dst i j src) j = slice_from dst j.
Proof.
  intros H1 H2. unfold copy_at, slice_from at 1.
  rewrite app_assoc. apply drop_app_length'.
  rewrite length_app, length_copy, length_slice, length_slice_to by lia. lia.
Qed.

Variable now : bytes.

(** The synthetic response has the length of the template, the code at
    bytes 9 to 11 and the template's [HTTP/1.1 ] in front of it. *)
Lemma errorPayload_shape (code : bytes) :
  length code = 3%nat ->
  length (errorPayload now code) = length errorPayloadTemplate
  /\ slice (errorPayload now code) 9 12 = code
  /\ slice_to (errorPayload now code) 9 = B "HTTP/1.1 ".
Proof.
  intros Hc. unfold errorPayload.
  rewrite copy_fresh.
  set (T := errorPayloadTemplate).
  assert (HT : len T = 122) by reflexivity.
  assert (HT' : length T = 122%nat) by reflexivity.
  assert (H1 : length (copy_at T 29 58 now) = length T)
    by (apply length_copy_at; lia).
  assert (H1' : len (copy_at T 29 58 now) = 122) by (unfold len; rewrite H1, HT'; lia).
  split; [|split].
  - rewrite length_copy_at by lia. done.
  - apply slice_copy_at; try lia. unfold len. rewrite Hc. lia.
  - rewrite slice_to_copy_at by lia.
    unfold copy_at, slice_to at 1.
    rewrite take_app_le by (rewrite length_slice_to by lia; lia).
    unfold slice_to. rewrite take_take. reflexivity.
Qed.

End ErrorPayload.

(** ** Replay client: the read loop ends *)

Section ReadLoop.

Import Client.

Variable P : Proto.
Variable now : bytes.
Variable goClient : bytes -> bytes + NetErr.

Lemma HasPrefix_length s sep :
  strings.HasPrefix s sep = true -> (length sep <= length s)%nat.
Proof.
  unfold strings.HasPrefix, bytes_eqb. intros H%bool_decide_eq_true.
  rewrite <- H, length_take. lia.
Qed.

Lemma Index_bound s sep :
  strings.Index s sep <> -1 ->
  0 <= strings.Index s sep /\ strings.Index s sep + len sep <= len s.
Proof.
  unfold len. induction s as [|x s IH]; simpl.
  - destruct (strings.HasPrefix [] sep) eqn:E; [|done].
    apply HasPrefix_length in E. simpl in *. lia.
  - destruct (strings.HasPrefix (x :: s) sep) eqn:E.
    + apply HasPrefix_length in E. simpl in *. lia.
    + destruct (strings.Index s sep =? -1) eqn:E2; [done|].
      apply Z.eqb_neq in E2. specialize (IH E2). lia.
Qed.

Lemma Read_length k cap d e k' :
  Read k cap = (d, e, k') -> (length d <= cap)%nat.
Proof.
  unfold Read. destruct (incoming k) as [|[d0|e0] rest].
  - intros [= <- _ _]. simpl. lia.
  - destruct (length d0 <=? cap)%nat eqn:E.
    + apply Nat.leb_le in E. by intros [= <- _ _].
    + intros [= <- _ _]. rewrite length_take. lia.
  - intros [= <- _ _]. simpl. lia.
Qed.

(** A read uses up what is pending, or nothing is left and it fails. *)
Lemma Read_pending k cap d e k' :
  Read k cap = (d, e, k') -> (0 < cap)%nat ->
  (incoming k = [] /\ d = [] /\ e = Some (at_end k) /\ k' = k)
  \/ (2 * pending k' + length d < 2 * pending k)%nat.
Proof.
  unfold Read, pending. destruct (incoming k) as [|[d0|e0] rest] eqn:Hi.
  - intros [= <- <- <-] _. by left.
  - intros H Hc. right. destruct (length d0 <=? cap)%nat eqn:E.
    + injection H as <- _ <-. simpl. lia.
    + apply Nat.leb_gt in E. injection H as <- _ <-. simpl.
      rewrite length_take, length_drop. lia.
  - intros [= <- _ <-] _. right. simpl. lia.
Qed.

Lemma length_view st :
  0 <= readBytes st -> len (view st) = Z.min (readBytes st) (len (respBuf (lc st))).
Proof. unfold view, slice_to, len. intros H. rewrite length_take. lia. Qed.

Lemma length_store (buf d : bytes) (i : Z) :
  0 <= i -> i + len d <= len buf -> length (store buf i d) = length buf.
Proof.
  unfold store, slice_to, slice_from, len. intros H1 H2.
  rewrite !length_app, length_take, length_drop. lia.
Qed.

Lemma kept_refl c : kept c c.
Proof. by unfold kept. Qed.

Lemma kept_trans c1 c2 c3 : kept c1 c2 -> kept c2 c3 -> kept c1 c3.
Proof. unfold kept. intros (-> & -> & ->) (-> & -> & ->). done. Qed.

Lemma kept_Disconnect c : kept c (Disconnect c).
Proof. unfold kept, Disconnect. by destruct (conn c). Qed.

(** What [frame] does to the counters of the loop. *)
Lemma frame_progress st n fl st' :
  frame P st n = (fl, st') -> 0 <= readBytes st ->
  conn (lc st') = conn (lc st) /\ err st' = err st /\ kept (lc st) (lc st') /\
  currentChunk st' = currentChunk st /\
  match fl with
  | Continue => 0 <= readBytes st' /\ readBytes st' + 4 <= readBytes st
  | _ => readBytes st' = readBytes st /\ lc st' = lc st
  end.
Proof.
  intros H Hr. unfold frame in H.
  repeat case_match; simplify_eq/=; try (repeat split; done).
  split; [done|]. split; [done|]. split.
  { unfold kept. simpl. by rewrite length_copy. }
  split; [done|].
  match goal with
  | H : negb (strings.Index ?v ?s =? -1) = true |- _ =>
      apply negb_true_iff, Z.eqb_neq in H;
      pose proof (Index_bound _ _ H) as [Hb1 Hb2]
  end.
  pose proof (length_view st Hr) as Hv.
  change (len EmptyLine) with 4 in *. lia.
Qed.

Lemma body_done_cases st tail u fl st' :
  body_done st tail u = (fl, st') ->
  (fl, st') = u \/ (fl = Falls /\ st' = st)
  \/ (fl = Breaks /\ (st' = st \/ st' = with_lc st (Disconnect (lc st)))).
Proof.
  unfold body_done. intros H.
  repeat case_match; simplify_eq/=; auto.
Qed.

(** One pass keeps the configuration and the size of the buffer, and
    unless it breaks out of the loop it uses up part of the bound. *)
Lemma pass_progress st k fl st' :
  pass P st k = (fl, st') -> 0 <= readBytes st -> chunk_ok st ->
  kept (lc st) (lc st') /\ 0 <= readBytes st' /\ chunk_ok st' /\
  (fl <> Breaks ->
     exists k', conn (lc st') = Some k' /\
       (2 * pending k' + Z.to_nat (readBytes st')
        < 2 * pending k + Z.to_nat (readBytes st))%nat).
Proof.
  intros H Hr Hck. unfold pass in H.
  destruct (readBytes st <? len (respBuf (lc st))) eqn:Hb.
  - apply Z.ltb_lt in Hb.
    destruct (Read (SetDeadline k (timeout st))
                (Z.to_nat (len (respBuf (lc st)) - readBytes st))) as [[d e] k1] eqn:HR.
    pose proof (Read_length _ _ _ _ _ HR) as Hlen.
    pose proof (Read_pending _ _ _ _ _ HR ltac:(lia)) as Hpend.
    change (pending (SetDeadline k (timeout st))) with (pending k) in Hpend.
    set (st1 := with_read st _ (len d) e) in H.
    assert (Hk1 : kept (lc st) (lc st1)).
    { unfold kept. simpl. rewrite length_store; [done|lia|unfold len in *; lia]. }
    assert (Hrb : readBytes st1 = readBytes st + Z.of_nat (length d)) by done.
    assert (Hcn1 : conn (lc st1) = Some k1) by done.
    assert (Hcc1 : currentChunk st1 = currentChunk st) by done.
    assert (Her1 : err st1 = e) by done.
    assert (Hr1 : 0 <= readBytes st1) by lia.
    clearbody st1.
    unfold buffered in H.
    destruct (frame P st1 (len d)) as [fl1 st2] eqn:HF.
    apply frame_progress in HF as (Hc2 & He2 & Hk2 & Hck2 & Hfl); [|done].
    assert (Hck' : chunk_ok st2) by (unfold chunk_ok; by rewrite Hck2, Hcc1).
    assert (Hk12 : kept (lc st) (lc st2)) by (by eapply kept_trans).
    destruct fl1.
    + (* continue *)
      injection H as <- <-. split; [done|]. split; [lia|]. split; [done|].
      intros _. exists k1. split; [by rewrite Hc2|].
      destruct Hfl as [Hf1 Hf2].
      destruct Hpend as [(_ & Hd & _ & Hkk)|Hp]; [|lia].
      rewrite Hd in Hrb. simpl in Hrb. rewrite Hkk.
      change (pending (SetDeadline k (timeout st))) with (pending k). lia.
    + destruct Hfl as [Hf1 Hf2].
      destruct (body_done st2 (view st2) (Falls, st2)) as [fl3 st3] eqn:HB.
      apply body_done_cases in HB as [HB|[[-> ->]|[-> HB]]].
      * injection HB as -> ->.
        destruct (err st2) as [e2|] eqn:Hee.
        -- destruct (bool_decide (e2 = EOF)); injection H as <- <-;
             (split; [done|split; [simpl; lia|split; done]]).
        -- injection H as <- <-. split; [done|]. split; [lia|]. split; [done|].
           intros _. exists k1. split; [by rewrite Hc2|].
           destruct Hpend as [(_ & _ & Hee' & _)|Hp]; [congruence|lia].
      * destruct (err st2) as [e2|] eqn:Hee.
        -- destruct (bool_decide (e2 = EOF)); injection H as <- <-;
             (split; [done|split; [simpl; lia|split; done]]).
        -- injection H as <- <-. split; [done|]. split; [lia|]. split; [done|].
           intros _. exists k1. split; [by rewrite Hc2|].
           destruct Hpend as [(_ & _ & Hee' & _)|Hp]; [congruence|lia].
      * injection H as <- <-. split; [|split; [|split; [|done]]].
        -- destruct HB as [->| ->]; [done|]. simpl.
           eapply kept_trans; [done|apply kept_Disconnect].
        -- destruct HB as [->| ->]; simpl; lia.
        -- by destruct HB as [->| ->].
    + destruct Hfl as [Hf1 Hf2]. injection H as <- <-.
      split; [done|]. split; [lia|done].
  - apply Z.ltb_ge in Hb.
    set (chunk := match currentChunk st with
                  | Some b => b
                  | None => replicate (Z.to_nat readChunkSize) "000"%char
                  end) in H.
    assert (Hc : (0 < length chunk)%nat).
    { subst chunk. unfold chunk_ok in Hck. destruct (currentChunk st); [done|].
      rewrite length_replicate. unfold readChunkSize. lia. }
    destruct (Read (SetDeadline k (timeout st)) (length chunk)) as [[d e] k1] eqn:HR.
    set (st1 := add_currentContentLength _ (len d)) in H.
    assert (Hck1 : chunk_ok st1) by (unfold chunk_ok; simpl; by rewrite length_copy).
    assert (Hk1 : kept (lc st) (lc st1)) by done.
    assert (Hr1 : 0 <= readBytes st1) by (simpl; unfold len; lia).
    destruct (body_done st1 (slice_to (copy chunk d) (len d))
                (Breaks, with_lc st1 (Disconnect (lc st1)))) as [fl3 st3] eqn:HB.
    apply body_done_cases in HB as [HB|[[-> ->]|[-> HB]]].
    + injection HB as -> ->. injection H as <- <-.
      split; [by unfold kept|]. split; [simpl; unfold len; lia|done].
    + destruct (err st1) as [e1|] eqn:Hee.
      * injection H as <- <-. split; [done|]. split; [done|done].
      * injection H as <- <-. split; [done|]. split; [done|]. split; [done|].
        intros _. exists k1. split; [done|].
        pose proof (Read_pending _ _ _ _ _ HR Hc) as Hpend.
        change (pending (SetDeadline k (timeout st))) with (pending k) in Hpend.
        assert (Hrb : readBytes st1 = readBytes st + Z.of_nat (length d)) by done.
        assert (Her1 : err st1 = e) by done.
        destruct Hpend as [(_ & _ & Hee' & _)|Hp]; [congruence|lia].
    + injection H as <- <-. split; [|split; [|split; [|done]]].
      * destruct HB as [->| ->]; by unfold kept.
      * destruct HB as [->| ->]; simpl; unfold len; lia.
      * by destruct HB as [->| ->].
Qed.

(** The loop ends within the bound that [send] gives it, and what it
    ends with has the client's configuration and a count of bytes that
    is not negative. *)
Lemma read_loop_ends fuel : forall st,
  0 <= readBytes st -> chunk_ok st -> (passes st <= fuel)%nat ->
  (exists p, read_loop P fuel st = Panics p) \/
  exists st', read_loop P fuel st = Ret st'
    /\ kept (lc st) (lc st') /\ 0 <= readBytes st'.
Proof.
  induction fuel as [|fuel IH]; intros st Hr Hck Hf.
  { unfold passes in Hf. destruct (conn (lc st)); lia. }
  simpl. unfold passes in Hf.
  destruct (conn (lc st)) as [k|] eqn:Hk; [|left; by eexists].
  destruct (pass P st k) as [fl st1] eqn:HP.
  apply pass_progress in HP as (Hk1 & Hr1 & Hck1 & Hm); [|done..].
  assert (Hnext : fl <> Breaks -> forall d,
    (exists p, read_loop P fuel (with_timeout st1 d) = Panics p) \/
    exists st', read_loop P fuel (with_timeout st1 d) = Ret st'
      /\ kept (lc st) (lc st') /\ 0 <= readBytes st').
  { intros Hfl d. destruct (Hm Hfl) as (k' & Hk' & Hlt).
    destruct (IH (with_timeout st1 d)) as [Hp|(st' & H1 & H2 & H3)]; try done.
    - unfold passes. simpl. rewrite Hk'. lia.
    - by left.
    - right. exists st'. split; [done|]. split; [|done]. by eapply kept_trans. }
  destruct fl.
  - replace st1 with (with_timeout st1 (timeout st1)) by (by destruct st1).
    by apply Hnext.
  - destruct (maxResponseSize <=? readBytes st1).
    + right. by exists st1.
    + by apply Hnext.
  - right. by exists st1.
Qed.

End ReadLoop.

(** ** Replay client: what [Send] returns *)

Section SendResults.

Import Client.

Variable P : Proto.
Variable now : bytes.
Variable goClient : bytes -> bytes + NetErr.

Local Abbreviation result_t := (HTTPClient * result (bytes * option NetErr))%type.
Local Abbreviation classified := (classified now).
Local Abbreviation Send_n := (Send_n P now goClient).

Lemma Connect_kept c c' r : Connect c = (c', r) -> kept c c'.
Proof.
  unfold Connect, Connect_tls, DialTimeout, Disconnect, kept. intros H.
  repeat case_match; simplify_eq/=; done.
Qed.

Lemma isAlive_kept c k rb b c' rb' :
  isAlive c k rb = Ret (b, c', rb') -> 0 <= rb ->
  kept c c' /\ 0 <= rb' /\ exists k', conn c' = Some k'.
Proof.
  unfold isAlive, kept. intros H Hrb.
  destruct (respBuf c) as [|x buf] eqn:Hbuf; [done|].
  destruct (Read (SetDeadline k Probe) 1) as [[d e] k1].
  repeat case_match; simplify_eq/=;
    rewrite ?length_copy; unfold len; repeat split; eauto; lia.
Qed.

Lemma classified_recovered (r : result_t) :
  (exists p, r.2 = Panics p) \/ classified r.2 -> classified (recovered r).2.
Proof.
  destruct r as [c [a|p|]]; simpl; intros [[p' H]|H]; try done;
    try (by left);
    destruct H as [H|[[e H]|[[e H]|[[e H]|(pl & e & H & _)]]]]; done.
Qed.

Lemma payload_prefix (buf : bytes) (rb : Z) :
  4 <= rb -> 4 <= len buf -> slice_to buf 4 = B "HTTP" ->
  slice_to (copy (replicate (Z.to_nat (Z.min rb (len buf))) "000"%char)
                 (slice_to buf (Z.min rb (len buf)))) 4 = B "HTTP".
Proof.
  intros H1 H2 H3. rewrite copy_exact.
  - unfold slice_to in *. rewrite take_take. rewrite <- H3. f_equal. lia.
  - rewrite length_replicate, length_slice_to; lia.
Qed.

(** [send] after its loop, whatever the redirect leads to. *)
Lemma send_finish_classified (S : HTTPClient -> bytes -> result_t) data st :
  (forall c d,
     config c = config (lc st) ->
     redirectsCount c = redirectsCount (lc st) + 1 ->
     redirectsCount (lc st) < FollowRedirects (config (lc st)) ->
     classified (S c d).2) ->
  (exists p, (send_finish P now S data st).2 = Panics p)
  \/ classified (send_finish P now S data st).2.
Proof.
  intros HS. unfold send_finish.
  destruct (err st) as [e|] eqn:He; simpl.
  - destruct (readBytes st =? 0) eqn:E0.
    { right. right. right. left. by exists e. }
    destruct ((readBytes st <? 4)
              || (if len (respBuf (lc st)) <? 4 then false
                  else negb (bytes_eqb (slice_to (respBuf (lc st)) 4) (B "HTTP")))) eqn:E1.
    { destruct (len (respBuf (lc st)) <? Z.min 100 (readBytes st));
        [left; by eexists|]. right. do 3 right. left. by eexists. }
    apply orb_false_iff in E1 as [E1 E2]. apply Z.ltb_ge in E1.
    destruct (len (respBuf (lc st)) <? 4) eqn:E3; [left; by eexists|].
    apply Z.ltb_ge in E3. apply negb_false_iff, bool_decide_eq_true in E2.
    pose proof (payload_prefix _ _ E1 E3 E2) as Hp.
    set (payload := copy _ _) in *.
    destruct ((0 <? FollowRedirects (config (lc st)))
              && (redirectsCount (lc st) <? FollowRedirects (config (lc st)))) eqn:Er.
    + apply andb_prop in Er as [_ Er%Z.ltb_lt].
      destruct (len payload <? 12); [left; by eexists|].
      destruct (bytes_eqb (slice payload 9 10) (B "3")).
      * right. by apply HS.
      * right. do 4 right. eexists _, _. split; [reflexivity|exact Hp].
    + right. do 4 right. eexists _, _. split; [reflexivity|exact Hp].
  - destruct ((readBytes st <? 4)
              || (if len (respBuf (lc st)) <? 4 then false
                  else negb (bytes_eqb (slice_to (respBuf (lc st)) 4) (B "HTTP")))) eqn:E1.
    { destruct (len (respBuf (lc st)) <? Z.min 100 (readBytes st));
        [left; by eexists|]. right. do 3 right. left. by eexists. }
    apply orb_false_iff in E1 as [E1 E2]. apply Z.ltb_ge in E1.
    destruct (len (respBuf (lc st)) <? 4) eqn:E3; [left; by eexists|].
    apply Z.ltb_ge in E3. apply negb_false_iff, bool_decide_eq_true in E2.
    pose proof (payload_prefix _ _ E1 E3 E2) as Hp.
    set (payload := copy _ _) in *.
    destruct ((0 <? FollowRedirects (config (lc st)))
              && (redirectsCount (lc st) <? FollowRedirects (config (lc st)))) eqn:Er.
    + apply andb_prop in Er as [_ Er%Z.ltb_lt].
      destruct (len payload <? 12); [left; by eexists|].
      destruct (bytes_eqb (slice payload 9 10) (B "3")).
      * right. by apply HS.
      * right. do 4 right. eexists _, _. split; [reflexivity|exact Hp].
    + right. do 4 right. eexists _, _. split; [reflexivity|exact Hp].
Qed.

Lemma send_classified (S : HTTPClient -> bytes -> result_t) c k data rb :
  0 <= rb ->
  (forall c' d,
     config c' = config c ->
     redirectsCount c' = redirectsCount c + 1 ->
     redirectsCount c < FollowRedirects (config c) ->
     classified (S c' d).2) ->
  (exists p, (send P now S c k data rb).2 = Panics p)
  \/ classified (send P now S c k data rb).2.
Proof.
  intros Hrb HS. unfold send, send_read.
  destruct (ConnWrite k data) as [[e|] k1].
  { right. right. right. left. by exists e. }
  set (st := {| lc := set_conn c (Some k1); readBytes := rb |}).
  destruct (read_loop_ends P (passes st) st) as [[p Hp]|(st' & Hst & (Hc & Hrc & _) & Hr)];
    [done|done|lia| |].
  - rewrite Hp. left. by eexists.
  - rewrite Hst. apply send_finish_classified.
    intros c' d H1 H2 H3. rewrite Hc, Hrc in *. by apply HS.
Qed.

Lemma Connect_returns c : (Connect c).2 <> OutOfFuel.
Proof.
  unfold Connect, Connect_tls, DialTimeout.
  repeat case_match; simplify_eq/=; done.
Qed.

(** [connect_if_needed] returns; when it reports no error the client has
    a connection. *)
Lemma connect_if_needed_cases c c1 r :
  connect_if_needed c = (c1, r) ->
  kept c c1 /\
  match r with
  | Ret (Some e, _) => exists c0, (Connect c0).2 = Ret (Some e)
  | Ret (None, rb) => 0 <= rb
  | Panics _ => True
  | OutOfFuel => False
  end.
Proof.
  unfold connect_if_needed.
  assert (Hc : forall c0 rb c1 r, 0 <= rb ->
    (match Connect c0 with
     | (c, Ret e) => (c, Ret (e, rb))
     | (c, Panics p) => (c, Panics p)
     | (c, OutOfFuel) => (c, OutOfFuel)
     end : HTTPClient * result (option NetErr * Z)) = (c1, r) ->
    kept c0 c1 /\
    match r with
    | Ret (Some e, _) => (Connect c0).2 = Ret (Some e)
    | Ret (None, rb) => 0 <= rb
    | Panics _ => True
    | OutOfFuel => False
    end).
  { intros c0 rb c2 r2 Hrb H.
    pose proof (Connect_kept c0) as HK. pose proof (Connect_returns c0) as HR.
    destruct (Connect c0) as [c3 [e|p|]]; simplify_eq/=; try done.
    - split; [by eapply HK|]. by destruct e.
    - split; [by eapply HK|done]. }
  destruct (conn c) as [k|] eqn:Hk.
  - destruct (isAlive c k 0) as [[[[] c2] rb]|p|] eqn:HA.
    + apply isAlive_kept in HA as (Hk1 & Hrb & _); [|done].
      by intros [= <- <-].
    + apply isAlive_kept in HA as (Hk1 & Hrb & _); [|done].
      intros H. apply Hc in H as [H1 H2]; [|done].
      split; [by eapply kept_trans|].
      destruct r as [[[e|] rb']|p|]; try done. by exists c2.
    + by intros [= <- <-].
    + unfold isAlive in HA. repeat case_match; simplify_eq.
  - intros H. apply Hc in H as [H1 H2]; [|done]. split; [done|].
    destruct r as [[[e|] rb']|p|]; try done. by exists c.
Qed.

Lemma Send_body_classified (S : HTTPClient -> bytes -> result_t) c data :
  CompatibilityMode (config c) = false ->
  (forall c' d,
     config c' = config c ->
     redirectsCount c' = redirectsCount c + 1 ->
     redirectsCount c < FollowRedirects (config c) ->
     classified (S c' d).2) ->
  classified (recovered (Send_body P now goClient S c data)).2.
Proof.
  intros Hm HS. apply classified_recovered. unfold Send_body. rewrite Hm.
  destruct (connect_if_needed c) as [c1 r] eqn:HC.
  apply connect_if_needed_cases in HC as [(Hc & Hr & _) Hcase].
  destruct r as [[[e|] rb]|p|]; simpl.
  - right. right. left. by exists e.
  - destruct (conn c1) as [k|]; [|left; by eexists].
    apply send_classified; [done|].
    intros c' d' H1 H2 H3. rewrite Hc, Hr in *. by apply HS.
  - left. by eexists.
  - done.
Qed.

(** Every call of [Send] outside of the compatibility mode comes back
    with one of the classified results. *)
Lemma Send_n_classified n : forall c data,
  CompatibilityMode (config c) = false ->
  (Z.to_nat (FollowRedirects (config c) - redirectsCount c) <= n)%nat ->
  classified (Send_n n c data).2.
Proof.
  induction n as [|n IH]; intros c data Hm Hn; simpl;
    apply Send_body_classified; try done.
  - intros c' d _ _ H. lia.
  - intros c' d H1 H2 H3. apply IH; [by rewrite H1|]. rewrite H1, H2. lia.
Qed.

Local Abbreviation Send := (Client.Send P now goClient).

Lemma Send_unfold c data :
  Send c data
  = recovered (Send_body P now goClient
                 (match Z.to_nat (FollowRedirects (config c) - redirectsCount c) with
                  | O => fun c _ => (c, OutOfFuel)
                  | S r => Send_n r
                  end) c data).
Proof.
  unfold Client.Send.
  by destruct (Z.to_nat (FollowRedirects (config c) - redirectsCount c)).
Qed.

(** Whatever error [Connect] reports, [Send] answers with code 521. *)
Lemma Send_connect_failure c data c1 e :
  CompatibilityMode (config c) = false -> conn c = None ->
  Connect c = (c1, Ret (Some e)) ->
  Send c data = (c1, Ret (errorPayload now HTTP_CONNECTION_ERROR, Some e)).
Proof.
  intros Hm Hk HC. rewrite Send_unfold. unfold Send_body, connect_if_needed.
  by rewrite Hm, Hk, HC.
Qed.

Lemma send_write_failure S c k data rb k1 e :
  ConnWrite k data = (Some e, k1) ->
  send P now S c k data rb
  = (Disconnect (set_conn c (Some k1)), Ret (errorPayload now HTTP_TIMEOUT, Some e)).
Proof. intros H. unfold send, send_read. by rewrite H. Qed.

Lemma send_nothing_read S data st e :
  err st = Some e -> readBytes st = 0 ->
  send_finish P now S data st
  = (Disconnect (lc st), Ret (errorPayload now HTTP_TIMEOUT, Some e)).
Proof. intros He Hr. unfold send_finish. by rewrite He, Hr. Qed.

Lemma send_not_http S data st :
  (err st = None \/ readBytes st <> 0) ->
  (readBytes st < 4 \/
   (4 <= len (respBuf (lc st)) /\ slice_to (respBuf (lc st)) 4 <> B "HTTP")) ->
  Z.min 100 (readBytes st) <= len (respBuf (lc st)) ->
  send_finish P now S data st
  = (Disconnect (lc st), Ret (errorPayload now HTTP_UNKNOWN_ERROR, err st)).
Proof.
  intros H1 H2 H3. unfold send_finish.
  assert (E1 : (match err st with Some _ => true | None => false end)
               && (readBytes st =? 0) = false).
  { destruct H1 as [-> |H1]; [done|]. apply andb_false_iff. right. by apply Z.eqb_neq. }
  rewrite E1.
  assert (E2 : (readBytes st <? 4)
               || (if len (respBuf (lc st)) <? 4 then false
                   else negb (bytes_eqb (slice_to (respBuf (lc st)) 4) (B "HTTP"))) = true).
  { destruct H2 as [H2|[H2 H2']].
    - apply orb_true_iff. left. by apply Z.ltb_lt.
    - apply orb_true_iff. right.
      destruct (len (respBuf (lc st)) <? 4) eqn:E; [apply Z.ltb_lt in E; lia|].
      apply negb_true_iff. unfold bytes_eqb. by apply bool_decide_eq_false. }
  rewrite E2.
  destruct (len (respBuf (lc st)) <? Z.min 100 (readBytes st)) eqn:E3; [|done].
  apply Z.ltb_lt in E3. lia.
Qed.


Lemma isAlive_proxy c k rb b c' rb' :
  isAlive c k rb = Ret (b, c', rb') -> proxy c' = proxy c.
Proof. unfold isAlive. intros H. repeat case_match; simplify_eq/=; done. Qed.

Lemma Connect_unsupported c px :
  proxy c = Some px -> Scheme px <> B "http" ->
  Connect c = (Disconnect c, Panics (PanicString (B "Unsupported HTTP Proxy method"))).
Proof.
  intros Hp Hs. unfold Connect.
  assert (Hp' : proxy (Disconnect c) = Some px).
  { unfold Disconnect. by destruct (conn c). }
  rewrite Hp'. unfold bytes_eqb. by rewrite bool_decide_eq_false_2.
Qed.


End SendResults.





(** ** Replay client: informational heads *)

Section Informational.

Import Client.

Variable P : Proto.
Variable now : bytes.

Lemma HasPrefix_nil s : strings.HasPrefix s [] = true.
Proof. unfold strings.HasPrefix, bytes_eqb. by destruct s. Qed.

Lemma HasPrefix_app_long s t sep :
  (length sep <= length s)%nat ->
  strings.HasPrefix (s ++ t) sep = strings.HasPrefix s sep.
Proof. intros H. unfold strings.HasPrefix. by rewrite take_app_le. Qed.

(** The first occurrence stays where it is when bytes are appended. *)
Lemma Index_app s t sep :
  strings.Index s sep <> -1 -> strings.Index (s ++ t) sep = strings.Index s sep.
Proof.
  induction s as [|x s IH]; simpl.
  - destruct (strings.HasPrefix [] sep) eqn:E; [|done]. intros _.
    apply HasPrefix_length in E. destruct sep; [|simpl in E; lia].
    by destruct t.
  - destruct (strings.HasPrefix (x :: s) sep) eqn:E.
    + intros _. pose proof (HasPrefix_length _ _ E) as Hl.
      change (x :: s ++ t) with ((x :: s) ++ t).
      by rewrite HasPrefix_app_long, E.
    + destruct (strings.Index s sep =? -1) eqn:E2; [done|]. intros _.
      apply Z.eqb_neq in E2. pose proof (Index_bound _ _ E2) as [Ha Hb].
      change (x :: s ++ t) with ((x :: s) ++ t).
      rewrite HasPrefix_app_long, E by (unfold len in Hb; simpl; lia).
      rewrite (IH E2). by rewrite (proj2 (Z.eqb_neq _ _) E2).
Qed.

Lemma is_head_length h : is_head h -> len EmptyLine <= len h.
Proof. intros [H1 H2]. pose proof (Index_bound _ _ H1). lia. Qed.

Lemma app_prefix_long {A} (v T m R : list A) :
  v ++ T = m ++ R -> (length m <= length v)%nat -> v = m ++ drop (length m) v.
Proof.
  intros H Hl. rewrite <- (take_drop (length m) v) at 1. f_equal.
  rewrite <- (take_app_le v T) by done. rewrite H. apply take_app_length.
Qed.

(** Bytes that agree with a stream beginning with the head [m] hold an
    empty line only once they hold all of [m]. *)
Lemma first_message v T m R :
  v ++ T = m ++ R -> is_head m -> strings.Index v EmptyLine <> -1 ->
  v = m ++ drop (length m) v.
Proof.
  intros H [Hm1 Hm2] Hv.
  destruct (decide (length m <= length v)%nat) as [Hl|Hl]; [by eapply app_prefix_long|].
  exfalso. symmetry in H.
  apply app_prefix_long in H; [|lia].
  pose proof (Index_app v (drop (length v) m) EmptyLine Hv) as Hi.
  rewrite <- H in Hi. pose proof (Index_bound _ _ Hv) as [_ Hb].
  unfold len in *. lia.
Qed.

Lemma no_empty_line_short v T m R :
  v ++ T = m ++ R -> is_head m -> strings.Index v EmptyLine = -1 ->
  len v < len m.
Proof.
  intros H [Hm1 Hm2] Hv.
  destruct (decide (length m <= length v)%nat) as [Hl|Hl]; [|unfold len; lia].
  exfalso. apply app_prefix_long in H; [|done].
  pose proof (Index_app m (drop (length m) v) EmptyLine Hm1) as Hi.
  rewrite <- H in Hi. congruence.
Qed.

Lemma head_of_view h x :
  is_head h ->
  strings.Index (h ++ x) EmptyLine + len EmptyLine = len h
  /\ strings.Index (h ++ x) EmptyLine <> -1
  /\ slice_to (h ++ x) (strings.Index (h ++ x) EmptyLine + len EmptyLine) = h.
Proof.
  intros [H1 H2]. rewrite (Index_app h x _ H1). split; [done|]. split; [done|].
  rewrite H2. unfold slice_to, len. rewrite Nat2Z.id. apply take_app_length.
Qed.

Lemma view_with_read st c1 d e :
  0 <= readBytes st -> readBytes st + len d <= len (respBuf (lc st)) ->
  respBuf c1 = store (respBuf (lc st)) (readBytes st) d ->
  view (with_read st c1 (len d) e) = view st ++ d.
Proof.
  intros H0 H1 Hb. unfold view. simpl. rewrite Hb.
  unfold store, slice_to, slice_from, len in *.
  rewrite app_assoc. apply take_app_length'.
  rewrite length_app, length_take. lia.
Qed.

Lemma view_drop_head st n :
  0 <= n <= readBytes st -> readBytes st <= len (respBuf (lc st)) ->
  view (drop_head st n) = slice_from (view st) n.
Proof.
  intros H0 H1. unfold view, drop_head. simpl.
  unfold copy, slice, slice_to, slice_from, len in *.
  rewrite (take_ge (take _ _)) by (rewrite length_take, length_drop; lia).
  rewrite take_app_length' by (rewrite length_take, length_drop; lia).
  rewrite take_drop_commute. f_equal. f_equal. lia.
Qed.

Lemma respBuf_Disconnect c : respBuf (Disconnect c) = respBuf c.
Proof. unfold Disconnect. by destruct (conn c). Qed.

Lemma slice_to_store buf rb d n :
  0 <= n <= rb -> rb <= len buf -> slice_to (store buf rb d) n = slice_to buf n.
Proof.
  intros H1 H2. unfold store, slice_to, slice_from, len in *.
  rewrite take_app_le by (rewrite length_take; lia).
  rewrite take_take. f_equal. lia.
Qed.

Lemma prefix_of_slice (buf fh : bytes) rb :
  len fh <= rb -> slice_to buf (len fh) = fh ->
  slice_to buf rb = fh ++ slice_from (slice_to buf rb) (len fh).
Proof.
  intros H1 H2. unfold slice_to, slice_from, len in *.
  rewrite <- (take_drop (length fh) (take (Z.to_nat rb) buf)) at 1.
  rewrite Nat2Z.id in *. f_equal.
  rewrite take_take. replace (length fh `min` Z.to_nat rb)%nat with (length fh) by lia.
  done.
Qed.

(** A read from a connection whose next arrivals are the segments
    [segs]: it takes bytes from the front of their concatenation; once
    they are used up it takes whatever comes. *)
Lemma Read_stream k cap d e k' segs rest :
  Read k cap = (d, e, k') -> incoming k = map Data segs ++ rest ->
  exists segs' rest', incoming k' = map Data segs' ++ rest'
    /\ ((e = None /\ d ++ concat segs' = concat segs) \/ (segs = [] /\ segs' = [])).
Proof.
  unfold Read. intros H Hi. destruct segs as [|s segs].
  - exists [], (incoming k'). split; [done|]. by right.
  - rewrite Hi in H. simpl in H. destruct (length s <=? cap)%nat.
    + injection H as <- <- <-. exists segs, rest. split; [done|]. by left.
    + injection H as <- <- <-. exists (drop cap s :: segs), rest. split; [done|].
      left. split; [done|]. simpl. by rewrite app_assoc, take_drop.
Qed.

Section Heads.

Hypothesis Hreads : reads_head P.

(** What follows a head in the buffer changes neither the transfer
    encoding nor the status the client reads. *)
Lemma head_read h x :
  is_head h ->
  says_chunked P (h ++ x) = says_chunked P h /\ status_1xx P (h ++ x) = status_1xx P h.
Proof.
  intros Hh. destruct (head_of_view h x Hh) as (_ & Hi & Hs).
  destruct (Hreads (h ++ x) Hi) as [H1 H2]. rewrite Hs in H1, H2.
  unfold says_chunked, status_1xx. by rewrite H1, H2.
Qed.

Lemma frame_no_head st n :
  chunked st = false -> contentLength st = -1 ->
  strings.Index (view st) EmptyLine = -1 -> frame P st n = (Falls, st).
Proof. intros Hc Hl Hi. unfold frame. by rewrite Hc, Hl, Hi. Qed.

(** The framing block on a buffer that starts with a 1xx head: the head
    goes, the deadline is set anew, the loop continues. *)
Lemma frame_informational st n h x :
  chunked st = false -> contentLength st = -1 ->
  view st = h ++ x -> informational P h ->
  frame P st n = (Continue, drop_head st (len h)).
Proof.
  intros Hc Hl Hv (Hh & Hch & Hst).
  destruct (head_of_view h x Hh) as (Hlen & Hi & _).
  destruct (head_read h x Hh) as [H1 H2].
  unfold frame. rewrite Hc, Hl, Hv. simpl.
  apply Z.eqb_neq in Hi. rewrite Hi. simpl.
  unfold says_chunked in H1, Hch. rewrite H1, Hch.
  unfold status_1xx in H2, Hst. rewrite H2, Hst. by rewrite Hlen.
Qed.

Lemma frame_final st n h x fl st' :
  view st = h ++ x -> final_head P h -> frame P st n = (fl, st') -> fl <> Continue.
Proof.
  intros Hv (Hh & _ & Hst) H.
  destruct (head_read h x Hh) as [_ H2].
  unfold frame in H. rewrite Hv in H. unfold status_1xx in H2, Hst.
  rewrite H2, Hst in H.
  repeat case_match; by simplify_eq.
Qed.

Lemma buffered_not_continue st n fl st' :
  0 <= readBytes st ->
  (forall fl1 st1, frame P st n = (fl1, st1) -> fl1 <> Continue) ->
  buffered P st n = (fl, st') ->
  fl <> Continue /\ respBuf (lc st') = respBuf (lc st) /\ readBytes st' = readBytes st.
Proof.
  intros Hr Hf H. unfold buffered in H.
  destruct (frame P st n) as [fl1 st1] eqn:HF.
  pose proof (Hf _ _ eq_refl) as Hn.
  apply frame_progress in HF as (_ & _ & _ & _ & Hfl); [|done].
  destruct fl1; [done| |].
  - destruct Hfl as [Hrb Hlc].
    destruct (body_done st1 (view st1) (Falls, st1)) as [fl3 st3] eqn:HB.
    apply body_done_cases in HB as [HB|[[-> ->]|[-> HB]]].
    + injection HB as -> ->. destruct (err st1) as [e|].
      * injection H as <- <-. split; [done|].
        destruct (bool_decide (e = EOF)); simpl; by rewrite Hlc.
      * injection H as <- <-. by rewrite Hlc.
    + destruct (err st1) as [e|].
      * injection H as <- <-. split; [done|].
        destruct (bool_decide (e = EOF)); simpl; by rewrite Hlc.
      * injection H as <- <-. by rewrite Hlc.
    + injection H as <- <-. split; [done|].
      destruct HB as [->| ->]; simpl; rewrite ?respBuf_Disconnect; by rewrite Hlc.
  - destruct Hfl as [Hrb Hlc]. injection H as <- <-. by rewrite Hlc.
Qed.

Lemma slice_of_prefix (buf fh x : bytes) rb :
  slice_to buf rb = fh ++ x -> slice_to buf (len fh) = fh.
Proof.
  unfold slice_to, len. rewrite Nat2Z.id. intros H.
  assert (Hl : (length fh <= Z.to_nat rb)%nat).
  { apply (f_equal length) in H. rewrite length_take, length_app in H. lia. }
  transitivity (take (length fh) (fh ++ x)); [|apply take_app_length].
  rewrite <- H, take_take. f_equal. lia.
Qed.

Variable fh : bytes.
Hypothesis Hfh : final_head P fh.

(** Once the buffer starts with the final head it keeps doing so, and
    no pass ends at the [continue]. *)
Lemma pass_arrived st k fl st' :
  arrived fh st -> 0 <= readBytes st -> pass P st k = (fl, st') ->
  fl <> Continue /\ arrived fh st'.
Proof.
  intros [Ha1 Ha2] Hr H. unfold pass in H.
  destruct (readBytes st <? len (respBuf (lc st))) eqn:Hb.
  - apply Z.ltb_lt in Hb.
    destruct (Read (SetDeadline k (timeout st))
                (Z.to_nat (len (respBuf (lc st)) - readBytes st))) as [[d e] k1] eqn:HR.
    pose proof (Read_length _ _ _ _ _ HR) as Hlen.
    set (st1 := with_read st _ (len d) e) in H.
    assert (Hbuf : respBuf (lc st1) = store (respBuf (lc st)) (readBytes st) d) by done.
    assert (Hrb : readBytes st1 = readBytes st + len d) by done.
    assert (Hd : 0 <= len d) by (unfold len; lia).
    assert (Hf0 : 0 <= len fh) by (unfold len; lia).
    assert (Hs1 : slice_to (respBuf (lc st1)) (len fh) = fh).
    { rewrite Hbuf, slice_to_store; [done|lia|lia]. }
    assert (Hv1 : view st1 = fh ++ slice_from (view st1) (len fh)).
    { unfold view. apply prefix_of_slice; [lia|done]. }
    clearbody st1.
    apply buffered_not_continue in H as (Hn & Hb' & Hr').
    + split; [done|]. split; [lia|by rewrite Hb'].
    + lia.
    + intros fl1 st2 HF. eapply frame_final; [exact Hv1|exact Hfh|exact HF].
  - set (chunk := match currentChunk st with
                  | Some b => b
                  | None => replicate (Z.to_nat readChunkSize) "000"%char
                  end) in H.
    destruct (Read (SetDeadline k (timeout st)) (length chunk)) as [[d e] k1] eqn:HR.
    set (st1 := add_currentContentLength _ (len d)) in H.
    assert (Hbuf : respBuf (lc st1) = respBuf (lc st)) by done.
    assert (Hrb : readBytes st1 = readBytes st + len d) by done.
    assert (Hd : 0 <= len d) by (unfold len; lia).
    clearbody st1.
    destruct (body_done st1 (slice_to (copy chunk d) (len d))
                (Breaks, with_lc st1 (Disconnect (lc st1)))) as [fl3 st3] eqn:HB.
    apply body_done_cases in HB as [HB|[[-> ->]|[-> HB]]].
    + injection HB as -> ->. injection H as <- <-. split; [done|].
      split; simpl; [lia|]. by rewrite respBuf_Disconnect, Hbuf.
    + destruct (err st1); injection H as <- <-;
        (split; [done|]; split; [lia|by rewrite Hbuf]).
    + injection H as <- <-. split; [done|].
      destruct HB as [->| ->]; (split; simpl; [lia|]);
        rewrite ?respBuf_Disconnect; by rewrite Hbuf.
Qed.

(** What [send] returns once the loop ended with the final head at the
    front of the buffer, when it follows no redirects. *)
Lemma send_finish_arrived S data st :
  arrived fh st -> FollowRedirects (config (lc st)) <= 0 ->
  exists c' payload,
    send_finish P now S data st = (c', Ret (payload, err st))
    /\ slice_to payload (len fh) = fh /\ status_1xx P payload = false.
Proof.
  intros [Ha1 Ha2] Hred. destruct Hfh as (Hh & Hhttp & Hst).
  pose proof (is_head_length fh Hh) as H4. change (len EmptyLine) with 4 in H4.
  assert (Hfb : len fh <= len (respBuf (lc st))).
  { apply (f_equal length) in Ha2. unfold slice_to in Ha2.
    rewrite length_take in Ha2. unfold len. lia. }
  assert (Hb4 : slice_to (respBuf (lc st)) 4 = B "HTTP").
  { rewrite <- Hhttp, <- Ha2 at 1. unfold slice_to. rewrite take_take.
    f_equal. unfold len in *. lia. }
  set (rb := Z.min (readBytes st) (len (respBuf (lc st)))).
  assert (Hp : copy (replicate (Z.to_nat rb) "000"%char) (slice_to (respBuf (lc st)) rb)
               = slice_to (respBuf (lc st)) rb).
  { apply copy_exact. rewrite length_replicate, length_slice_to; [done|lia]. }
  unfold send_finish. cbv zeta.
  rewrite (proj2 (Z.eqb_neq (readBytes st) 0)) by lia. rewrite andb_false_r.
  rewrite (proj2 (Z.ltb_ge (readBytes st) 4)) by lia.
  rewrite (proj2 (Z.ltb_ge (len (respBuf (lc st))) 4)) by lia.
  rewrite Hb4. simpl orb. cbv iota.
  rewrite (proj2 (Z.ltb_ge 0 (FollowRedirects (config (lc st))))) by lia.
  simpl andb. cbv iota. fold rb. rewrite Hp.
  eexists _, _. split; [reflexivity|].
  assert (Hpre : slice_to (respBuf (lc st)) rb
                 = fh ++ slice_from (slice_to (respBuf (lc st)) rb) (len fh)).
  { apply prefix_of_slice; [lia|done]. }
  split.
  - rewrite Hpre. unfold slice_to at 1. unfold len.
    rewrite Nat2Z.id. apply take_app_length.
  - rewrite Hpre. by rewrite (proj2 (head_read fh _ Hh)).
Qed.

Variable c0 : HTTPClient.

(** While the final head is awaited a pass either leaves the buffer
    short of an empty line, or drops the 1xx head at its front and sets
    the deadline anew, or finds the final head at the front. *)
Lemma pass_awaiting st k hs fl st' :
  awaiting c0 fh hs st ->
  Forall (informational P) hs ->
  Forall (fun h => len h <= len (respBuf c0)) (fh :: hs) ->
  conn (lc st) = Some k -> pass P st k = (fl, st') ->
  (fl = Falls /\ awaiting c0 fh hs st')
  \/ (fl = Continue /\ timeout st' = Full
      /\ exists h hs', hs = h :: hs' /\ awaiting c0 fh hs' st')
  \/ (fl <> Continue /\ arrived fh st').
Proof.
  intros (Hc & Hl & Hk & Hrb & k' & segs & rest & extra & Hcn & Hin & Hstream)
    Hinf Hfits Hconn H.
  rewrite Hcn in Hconn. injection Hconn as ->.
  unfold pass in H. rewrite (proj2 (Z.ltb_lt _ _) (proj2 Hrb)) in H.
  destruct (Read (SetDeadline k (timeout st))
              (Z.to_nat (len (respBuf (lc st)) - readBytes st))) as [[d e] k1] eqn:HR.
  pose proof (Read_length _ _ _ _ _ HR) as Hlen.
  destruct (Read_stream _ _ _ _ _ segs rest HR Hin) as (segs' & rest' & Hin' & Hcase).
  set (st1 := with_read st _ (len d) e) in H.
  assert (Hd : 0 <= len d) by (unfold len; lia).
  assert (Hdl : readBytes st + len d <= len (respBuf (lc st))) by (unfold len in *; lia).
  assert (Hv1 : view st1 = view st ++ d) by (by apply view_with_read; [lia|lia|]).
  assert (Hc1 : chunked st1 = false) by done.
  assert (Hl1 : contentLength st1 = -1) by done.
  assert (Hcn1 : conn (lc st1) = Some k1) by done.
  assert (Hk1 : kept c0 (lc st1)).
  { eapply kept_trans; [exact Hk|]. unfold kept. simpl.
    rewrite length_store; [done|lia|lia]. }
  assert (Hrb1 : readBytes st1 = readBytes st + len d) by done.
  assert (Her1 : err st1 = e) by done.
  assert (Hbl : len (respBuf (lc st1)) = len (respBuf (lc st))).
  { unfold len. simpl. rewrite length_store; [done|lia|lia]. }
  assert (Hlv : len (view st1) = readBytes st1).
  { rewrite length_view by lia. lia. }
  assert (Hs1 : exists extra',
    view st1 ++ concat segs' = concat hs ++ fh ++ extra'
    /\ (e <> None -> segs' = [])).
  { destruct Hcase as [[-> Hd']|[-> ->]].
    - exists extra. split; [|done]. by rewrite Hv1, <- app_assoc, Hd'.
    - exists (extra ++ d). split; [|done].
      rewrite Hv1. simpl in *. rewrite !app_nil_r in *. rewrite Hstream.
      by rewrite <- !app_assoc. }
  destruct Hs1 as (extra' & Hstream1 & Herr).
  assert (Hl0 : len (respBuf (lc st1)) = len (respBuf c0)).
  { destruct Hk1 as (_ & _ & Hk1). unfold len. by rewrite Hk1. }
  clearbody st1.
  assert (Hshort : forall m R,
    view st1 ++ concat segs' = m ++ R -> is_head m -> len m <= len (respBuf c0) ->
    strings.Index (view st1) EmptyLine = -1 -> fl = Falls /\ awaiting c0 fh hs st').
  { intros m R Hm1 Hm2 Hm3 Hno.
    pose proof (no_empty_line_short _ _ _ _ Hm1 Hm2 Hno) as Hshort.
    assert (He : e = None).
    { destruct e as [e|]; [|done]. rewrite Herr in Hm1 by done. simpl in Hm1.
      rewrite app_nil_r in Hm1. rewrite Hm1 in Hshort. unfold len in Hshort.
      rewrite length_app in Hshort. lia. }
    unfold buffered in H. rewrite frame_no_head in H by done.
    unfold body_done in H. rewrite Hc1, Hl1 in H. simpl in H.
    rewrite Her1, He in H. injection H as <- <-.
    split; [done|]. split; [done|]. split; [done|]. split; [done|].
    split; [lia|]. by exists k1, segs', rest', extra'. }
  apply Forall_cons in Hfits as [Hfit Hfits].
  destruct (decide (strings.Index (view st1) EmptyLine = -1)) as [Hno|Hyes].
  { left. destruct hs as [|h hs'].
    - apply (Hshort fh extra'); [done|by destruct Hfh|done|done].
    - apply Forall_cons in Hinf as [(Hh & _) _].
      apply Forall_cons in Hfits as [Hfith _].
      apply (Hshort h (concat hs' ++ fh ++ extra')); [|done..].
      rewrite Hstream1. simpl. by rewrite <- app_assoc. }
  clear Hshort. right. destruct hs as [|h hs'].
  - right. simpl in Hstream1.
    pose proof (first_message _ _ _ _ Hstream1 (proj1 Hfh) Hyes) as Hvx.
    assert (Hr1 : 0 <= readBytes st1) by lia.
    apply buffered_not_continue in H as (Hn & Hb' & Hr'); [|done|].
    + split; [done|]. split.
      * rewrite Hr', <- Hlv, Hvx. unfold len. rewrite length_app. lia.
      * rewrite Hb'. unfold view in Hvx. by eapply slice_of_prefix.
    + intros fl1 st2 HF. eapply frame_final; [exact Hvx|exact Hfh|exact HF].
  - left.
    apply Forall_cons in Hinf as [Hh Hinf].
    apply Forall_cons in Hfits as [Hfith Hfits].
    assert (Hstream2 : view st1 ++ concat segs' = h ++ concat hs' ++ fh ++ extra').
    { rewrite Hstream1. simpl. by rewrite <- app_assoc. }
    pose proof (first_message _ _ _ _ Hstream2 (proj1 Hh) Hyes) as Hvx.
    set (x := drop (length h) (view st1)) in Hvx.
    unfold buffered in H. rewrite (frame_informational st1 _ h x) in H by done.
    injection H as <- <-. split; [done|]. split; [done|].
    exists h, hs'. split; [done|].
    pose proof (is_head_length h (proj1 Hh)) as Hh4. change (len EmptyLine) with 4 in Hh4.
    assert (Hhx : len h <= readBytes st1).
    { rewrite <- Hlv, Hvx. unfold len. rewrite length_app. lia. }
    split; [done|]. split; [done|]. split.
    { eapply kept_trans; [exact Hk1|]. unfold kept. simpl. by rewrite length_copy. }
    split.
    { assert (Hcp : len (respBuf (lc (drop_head st1 (len h)))) = len (respBuf (lc st1))).
      { unfold len. simpl. by rewrite length_copy. }
      rewrite Hcp. simpl. lia. }
    exists k1, segs', rest', extra'. split; [done|]. split; [done|].
    rewrite view_drop_head by lia. rewrite Hvx in Hstream2 |- *.
    unfold slice_from, len. rewrite Nat2Z.id, drop_app_length.
    rewrite <- app_assoc in Hstream2. by apply app_inv_head in Hstream2.
Qed.

Lemma loop_arrived fuel : forall st,
  arrived fh st -> 0 <= readBytes st -> chunk_ok st -> is_Some (conn (lc st)) ->
  (passes st <= fuel)%nat ->
  exists st', read_loop P fuel st = Ret st' /\ arrived fh st'.
Proof.
  induction fuel as [|fuel IH]; intros st Ha Hr Hck [k Hk] Hf;
    unfold passes in Hf; rewrite Hk in Hf; [lia|].
  simpl. rewrite Hk.
  destruct (pass P st k) as [fl st1] eqn:HP.
  pose proof (pass_arrived _ _ _ _ Ha Hr HP) as [Hn Ha1].
  apply pass_progress in HP as (Hk1 & Hr1 & Hck1 & Hm); [|done..].
  destruct fl; [done| |by exists st1].
  destruct (maxResponseSize <=? readBytes st1); [by exists st1|].
  destruct (Hm ltac:(done)) as (k' & Hk' & Hlt).
  apply IH; try done.
  unfold passes. simpl. rewrite Hk'. lia.
Qed.

Hypothesis Hmax : len (respBuf c0) <= maxResponseSize.

(** The loop drops the informational heads one after the other and ends
    with the final head at the front of the buffer. *)
Lemma loop_awaiting fuel : forall st hs,
  awaiting c0 fh hs st -> chunk_ok st ->
  Forall (informational P) hs ->
  Forall (fun h => len h <= len (respBuf c0)) (fh :: hs) ->
  (passes st <= fuel)%nat ->
  exists st', read_loop P fuel st = Ret st' /\ arrived fh st'.
Proof.
  induction fuel as [|fuel IH]; intros st hs Ha Hck Hinf Hfits Hf.
  { unfold passes in Hf. destruct (conn (lc st)); lia. }
  pose proof Ha as (_ & _ & _ & Hrb & k & _ & _ & _ & Hk & _).
  unfold passes in Hf. rewrite Hk in Hf.
  simpl. rewrite Hk.
  destruct (pass P st k) as [fl st1] eqn:HP.
  pose proof (pass_awaiting _ _ _ _ _ Ha Hinf Hfits Hk HP) as Hcases.
  apply pass_progress in HP as (Hk1 & Hr1 & Hck1 & Hm); [|lia|done].
  destruct Hcases as [[-> Ha1]|[(-> & _ & h & hs' & -> & Ha1)|[Hn Ha1]]].
  - pose proof Ha1 as (_ & _ & (_ & _ & Hlen) & Hrb1 & _).
    unfold len in Hrb1, Hmax. rewrite Hlen in Hrb1.
    rewrite (proj2 (Z.leb_gt _ _)) by lia.
    destruct (Hm ltac:(done)) as (k' & Hk' & Hlt).
    apply (IH _ hs); try done.
    unfold passes. simpl. rewrite Hk'. lia.
  - destruct (Hm ltac:(done)) as (k' & Hk' & Hlt).
    apply (IH _ hs'); try done.
    + by apply Forall_cons in Hinf as [_ ?].
    + apply Forall_cons in Hfits as [? Hfits]. apply Forall_cons in Hfits as [_ ?].
      by apply Forall_cons.
    + unfold passes. rewrite Hk'. lia.
  - destruct fl; [done| |by exists st1].
    destruct (maxResponseSize <=? readBytes st1); [by exists st1|].
    destruct (Hm ltac:(done)) as (k' & Hk' & Hlt).
    apply loop_arrived; try done.
    unfold passes. simpl. rewrite Hk'. lia.
Qed.

End Heads.



End Informational.

(** The helpers as the specification describes them read the status and
    the headers off the head. *)
Lemma Index_occurs s sep :
  strings.Index s sep <> -1 ->
  strings.HasPrefix (drop (Z.to_nat (strings.Index s sep)) s) sep = true.
Proof.
  induction s as [|x s IH]; simpl.
  - by destruct (strings.HasPrefix [] sep) eqn:E.
  - destruct (strings.HasPrefix (x :: s) sep) eqn:E; [done|].
    destruct (strings.Index s sep =? -1) eqn:E2; [done|]. intros _.
    apply Z.eqb_neq in E2. pose proof (Index_bound _ _ E2) as [Ha _].
    replace (Z.to_nat (strings.Index s sep + 1)) with (S (Z.to_nat (strings.Index s sep)))
      by lia.
    by apply IH.
Qed.

Lemma occurs_Index sep : forall i s,
  strings.HasPrefix (drop i s) sep = true -> strings.Index s sep <> -1.
Proof.
  induction i as [|i IH]; intros s H.
  - rewrite drop_0 in H. destruct s; simpl; by rewrite H.
  - destruct s as [|x s]; simpl in *; [by rewrite H|].
    destruct (strings.HasPrefix (x :: s) sep); [done|].
    specialize (IH s H). pose proof (Index_bound _ _ IH) as [Ha _].
    rewrite (proj2 (Z.eqb_neq _ _) IH). lia.
Qed.

Lemma Index_slice_to b sep :
  strings.Index b sep <> -1 ->
  strings.Index (slice_to b (strings.Index b sep + len sep)) sep = strings.Index b sep.
Proof.
  intros H. pose proof (Index_bound _ _ H) as [Ha Hb].
  pose proof (Index_occurs _ _ H) as Ho.
  set (i := strings.Index b sep) in *. unfold slice_to, len in *.
  set (t := take (Z.to_nat (i + Z.of_nat (length sep))) b).
  assert (Ht : strings.Index t sep <> -1).
  { apply (occurs_Index sep (Z.to_nat i)). subst t.
    unfold strings.HasPrefix, bytes_eqb in *.
    apply bool_decide_eq_true in Ho. apply bool_decide_eq_true.
    replace (Z.to_nat (i + Z.of_nat (length sep)))
      with (Z.to_nat i + length sep)%nat by lia.
    rewrite <- take_drop_commute, take_take.
    by replace (length sep `min` length sep)%nat with (length sep) by lia. }
  rewrite <- (Index_app t (drop (Z.to_nat (i + Z.of_nat (length sep))) b) sep Ht).
  subst t. by rewrite take_drop.
Qed.

Lemma ProtoSpec_reads_head : Client.reads_head ProtoSpec.ops.
Proof.
  intros b Hi.
  assert (Hh : ProtoSpec.head b
               = ProtoSpec.head (slice_to b (strings.Index b EmptyLine + len EmptyLine))).
  { unfold ProtoSpec.head. rewrite Index_slice_to by done.
    rewrite (proj2 (Z.eqb_neq _ _) Hi).
    pose proof (Index_bound _ _ Hi) as [Ha Hb].
    unfold slice_to. rewrite take_take. f_equal. unfold len in *. lia. }
  simpl. unfold ProtoSpec.Status, ProtoSpec.Header, ProtoSpec.head_lines.
  by rewrite Hh.
Qed.



(** ** Fan-out emitter *)

Section CopyMultyFacts.

Import Emitter.

Variable payloadMeta : bytes -> list bytes.
Variable isRequestPayload : bytes -> bool.
Variable modifier : option (bytes -> bytes).
Variable prettifyHTTP : bytes -> bytes.
Variable copyBufferSize : Z.
Variable prettify : bool.
Variable splitOutput : bool.
Variable writers : list (bytes -> option IOErr).

Local Abbreviation process :=
  (process payloadMeta isRequestPayload modifier prettifyHTTP prettify splitOutput writers).
Local Abbreviation pass :=
  (pass payloadMeta isRequestPayload modifier prettifyHTTP prettify splitOutput writers).
Local Abbreviation loop :=
  (loop payloadMeta isRequestPayload modifier prettifyHTTP prettify splitOutput writers).
Local Abbreviation CopyMulty :=
  (CopyMulty payloadMeta isRequestPayload modifier prettifyHTTP copyBufferSize
     prettify splitOutput writers).
Local Abbreviation fan_out := (fan_out splitOutput writers).

Lemma write_all_entries ws k payload l e :
  write_all ws k payload = (l, e) -> Forall (fun kp => kp.2 = payload) l.
Proof.
  revert k l e. induction ws as [|w ws IH]; intros k l e; simpl.
  - by intros [= <- _].
  - destruct (w payload); [by intros [= <- _]|].
    destruct (write_all ws (S k) payload) as [l' e'] eqn:E.
    intros [= <- _]. constructor; [done|]. by eapply IH.
Qed.

Lemma fan_out_bounded L st payload st' :
  bounded L st -> len payload < L ->
  flow_state (fan_out st payload) = Some st' -> bounded L st'.
Proof.
  intros [Hb Hw] Hp. unfold Emitter.fan_out.
  destruct splitOutput.
  - destruct (wIndex st <? 0); [done|].
    destruct (writers !! Z.to_nat (wIndex st)) as [w|]; [|done].
    destruct (w payload); simpl; intros [= <-]; [done|].
    split; [done|]. simpl. apply Forall_app. split; [done|].
    by apply Forall_singleton.
  - destruct (write_all writers 0 payload) as [l [e|]] eqn:E;
      simpl; intros [= <-]; (split; [done|]); simpl;
      apply Forall_app; (split; [done|]);
      apply write_all_entries in E;
      eapply Forall_impl; [exact E| |exact E|]; simpl; intros kp ->; done.
Qed.

Lemma sweep_bounded L st now : bounded L st -> bounded L (sweep st now).
Proof.
  intros [Hb Hw]. unfold sweep.
  destruct ((i st mod 1000 =? 0)
            && (60 * second <? now - filteredRequestsLastCleanTime st)); by split.
Qed.

Section Shrinking.

Hypothesis Rewrite_shrinks :
  forall Rewrite, modifier = Some Rewrite -> forall b, len (Rewrite b) <= len b.
Hypothesis prettify_shrinks :
  prettify = true -> forall b, len (prettifyHTTP b) <= len b.

Lemma process_bounded L st r st' :
  bounded L st -> 0 < nr r < len (buf st) ->
  flow_state (process st r) = Some st' -> bounded L st'.
Proof.
  intros HB Hnr. pose proof HB as [Hb Hw]. unfold Emitter.process.
  set (payload := slice_to (buf st) (nr r)).
  assert (Hp : len payload < L).
  { subst payload. unfold slice_to, len in Hnr, Hb |- *. rewrite length_take. lia. }
  destruct (len (payloadMeta payload) <? 3); [by intros [= <-]|].
  assert (Hfan : forall p, len p <= len payload ->
    flow_state (let p' := if prettify then prettifyHTTP p else p in
                if prettify && (len p' =? 0) then Continue st else fan_out st p')
    = Some st' -> bounded L st').
  { intros p Hle. simpl.
    assert (Hp' : len (if prettify then prettifyHTTP p else p) < L).
    { destruct prettify eqn:E; [|lia].
      pose proof (prettify_shrinks eq_refl p). lia. }
    destruct (prettify && (len (if prettify then prettifyHTTP p else p) =? 0)).
    - by intros [= <-].
    - by apply fan_out_bounded. }
  destruct modifier as [Rewrite|] eqn:Hm.
  - destruct (isRequestPayload payload).
    + set (headSize := strings.IndexByte payload "010"%char + 1).
      destruct (len (Rewrite (slice_from payload headSize)) =? 0).
      { by intros [= <-]. }
      destruct (negb (len (slice_from payload headSize)
                      =? len (Rewrite (slice_from payload headSize)))).
      * apply Hfan. pose proof (Rewrite_shrinks Rewrite eq_refl (slice_from payload headSize)) as HR.
        unfold len, slice_to, slice_from in *.
        rewrite length_app. rewrite length_drop in HR. rewrite length_take. lia.
      * apply Hfan. lia.
    + destruct (filteredRequests st !! nth 1 (payloadMeta payload) []).
      * by intros [= <-].
      * apply Hfan. lia.
  - apply Hfan. lia.
Qed.

Lemma pass_bounded L st r st' :
  bounded L st -> flow_state (pass st r) = Some st' -> bounded L st'.
Proof.
  intros [Hb Hw]. unfold Emitter.pass.
  set (st1 := set_buf st (copy (buf st) (data r))).
  assert (HB1 : bounded L st1).
  { split; [|done]. simpl. unfold len in *. by rewrite length_copy. }
  destruct (er r) as [[]|]; try (by intros [= <-]).
  destruct ((0 <? nr r) && (nr r <? len (buf st1))) eqn:E.
  - apply andb_prop in E as [E1%Z.ltb_lt E2%Z.ltb_lt].
    destruct (process st1 r) as [s|s|e s|] eqn:HP; simpl; intros [= <-];
      try apply sweep_bounded;
      (eapply process_bounded; [exact HB1|split; [exact E1|exact E2]|by rewrite HP]).
  - intros [= <-]. by apply sweep_bounded.
Qed.

Lemma loop_bounded L reads : forall st st',
  bounded L st -> final (loop st reads) = Some st' -> bounded L st'.
Proof.
  induction reads as [|r reads IH]; intros st st' HB; simpl.
  - by intros [= <-].
  - pose proof (pass_bounded L st r) as HP.
    destruct (pass st r) as [s|s|e s|]; simpl in *; try done.
    + apply IH. by apply HP.
    + apply IH. by apply HP.
    + intros [= <-]. by apply HP.
Qed.

End Shrinking.

(** A read that fills the buffer, or more, is only logged. *)
Lemma pass_full_buffer st r :
  er r = None -> 0 < nr r -> len (buf st) <= nr r ->
  exists st', pass st r = Falls st'
    /\ written st' = written st /\ wIndex st' = wIndex st
    /\ filteredRequests st' ⊆ filteredRequests st.
Proof.
  intros He Hn Hl. unfold Emitter.pass. rewrite He.
  assert (E : (0 <? nr r) && (nr r <? len (buf (set_buf st (copy (buf st) (data r))))) = false).
  { apply andb_false_iff. right. apply Z.ltb_ge. simpl.
    unfold len in *. by rewrite length_copy. }
  rewrite E. eexists. split; [reflexivity|]. unfold sweep. simpl.
  destruct ((i st mod 1000 =? 0)
            && (60 * second <? at_time r - filteredRequestsLastCleanTime st)); simpl.
  - split; [done|]. split; [done|]. apply map_filter_subseteq.
  - done.
Qed.

(** C10 (as the code has it).  A read that fills the copy buffer is
    discarded with a warning: nothing is written, the round-robin index
    stays, and no request is recorded as filtered.  When the modifier and
    the prettifier, where they are on, never lengthen a payload, every
    payload that [CopyMulty] hands to a writer is strictly shorter than
    the copy buffer. *)
Theorem CopyMulty_full_read_dropped :
  (forall Rewrite, modifier = Some Rewrite -> forall b, len (Rewrite b) <= len b) ->
  (prettify = true -> forall b, len (prettifyHTTP b) <= len b) ->
  (forall st r, er r = None -> 0 < nr r -> len (buf st) <= nr r ->
     exists st', pass st r = Falls st'
       /\ written st' = written st /\ wIndex st' = wIndex st
       /\ filteredRequests st' ⊆ filteredRequests st)
  /\ (forall start reads st,
        final (CopyMulty start reads) = Some st ->
        Forall (fun kp => len kp.2 < copyBufferSize) (written st)).
Proof.
  intros HR HP. split; [apply pass_full_buffer|].
  intros start reads st H.
  eapply (loop_bounded HR HP (len (replicate (Z.to_nat copyBufferSize) "000"%char))) in H
    as [_ Hw].
  - eapply Forall_impl; [exact Hw|]. simpl. intros kp Hkp.
    unfold len in *. rewrite length_replicate in Hkp. lia.
  - split; [done|]. constructor.
Qed.

End CopyMultyFacts.

Lemma CopyMulty_full_read_dropped_witness :
  match Emitter.final (Samples.CopyMulty None 64 [Samples.read_of Samples.host_request]) with
  | Some st => Forall (fun kp => len kp.2 < 64) (Emitter.written st)
  | None => False
  end.
Proof.
  destruct (CopyMulty_full_read_dropped Protocol.payloadMeta Protocol.isRequestPayload
              None (fun b => b) 64 false false [Samples.null_writer]) as [_ H].
  - intros Rewrite HR. discriminate HR.
  - intros HP. discriminate HP.
  - specialize (H 0 [Samples.read_of Samples.host_request]).
    unfold Samples.CopyMulty.
    destruct (Emitter.final _) as [st|] eqn:E; [by apply H|].
    vm_compute in E. discriminate E.
Defined.

(** C10 as stated fails: with a modifier that sets a header, a request of
    51 bytes read into a copy buffer of 64 bytes goes to the writer with
    66 bytes. *)
Lemma CopyMulty_forwards_longer :
  len Samples.host_request = 51
  /\ exists st p,
       Emitter.final (Samples.CopyMulty (Some Samples.set_replayed_header) 64
                        [Samples.read_of Samples.host_request]) = Some st
       /\ Emitter.written st = [(0%nat, p)]
       /\ len p = 66 /\ ~ (len p < 64).
Proof.
  split; [reflexivity|].
  eexists. eexists.
  split; [vm_compute; reflexivity|].
  split; [reflexivity|].
  split; [reflexivity|].
  vm_compute. intros H. discriminate H.
Qed.
